(** * Proximity Index Engine (src/app.py): a shallow embedding and its properties

    The definitions follow the layout of [src/app.py]:

    - [Py]       the few Python primitives the program relies on
                 (exceptions, [str.find], indexing with negative indices,
                 slicing off the last character);
    - [Geohash]  [__BASE32], [__NEIGHBORS], [__BORDERS], [_neighbor],
                 [neighbors], [encode_geohash];
    - [Geo]      [haversine], [equirectangular_m], [bbox_pass],
                 [near_with_stages];
    - [Engine]   [User], the [users] dictionary, [geo_index],
                 [upsert_user], [check_proximity_geohash], the exhaustive
                 search [check_proximity], and the two engine calls of
                 the handler [location].  [notify_discord] and the test
                 page are input and output only, and are not modelled.

    Their properties come next, module by module: [PyFacts],
    [GeohashFacts], [GeoFacts], [EngineFacts].

    Python [float]s are modelled by the real numbers [R]: sums, differences,
    products, quotients and comparisons are the exact ones, [math.sin],
    [math.cos], [math.sqrt] and [math.atan2] are their mathematical
    counterparts.  Python [str] is [string], a [dict] is a [gmap], a [set]
    of identifiers is a [gset].  A function that can raise returns a
    [res]; a function that reads or writes the two global dictionaries is
    a computation [M] on the state that holds them, and [time.time()] is
    an argument of the functions that call it. *)

From Stdlib Require Import Reals Lra Lia ZArith List Ascii String.
From stdpp Require Import base gmap strings.
From Equations Require Import Equations.

(** ** Python primitives *)

Module Py.

(** The exceptions the modelled operations can raise. *)
Inductive exn : Type :=
| IndexError
| KeyError.

(** Outcome of a pure, fallible computation. *)
Inductive res (A : Type) : Type :=
| Ok (a : A)
| Raise (e : exn).
Arguments Ok {A} a.
Arguments Raise {A} e.

Definition rbind {A B} (m : res A) (k : A -> res B) : res B :=
  match m with
  | Ok a => k a
  | Raise e => Raise e
  end.

(** [s.find(c)] for a one-character [c]: first position, or [-1]. *)
Fixpoint str_find (s : string) (c : ascii) : Z :=
  match s with
  | EmptyString => (-1)%Z
  | String a s' =>
      if Ascii.eqb a c then 0%Z
      else let r := str_find s' c in
           if (r <? 0)%Z then (-1)%Z else (r + 1)%Z
  end.

(** [c in s] for a one-character [c]. *)
Fixpoint str_contains (s : string) (c : ascii) : bool :=
  match s with
  | EmptyString => false
  | String a s' => Ascii.eqb a c || str_contains s' c
  end.

(** [s[i]]: a negative [i] counts from the end, out of range raises. *)
Definition str_getitem (s : string) (i : Z) : res ascii :=
  let n := Z.of_nat (String.length s) in
  let j := if (i <? 0)%Z then (i + n)%Z else i in
  if ((j <? 0) || (n <=? j))%Z then Raise IndexError
  else match String.get (Z.to_nat j) s with
       | Some c => Ok c
       | None => Raise IndexError
       end.

(** [l[i]] on a list, same conventions. *)
Definition list_getitem {A} (l : list A) (i : Z) : res A :=
  let n := Z.of_nat (List.length l) in
  let j := if (i <? 0)%Z then (i + n)%Z else i in
  if ((j <? 0) || (n <=? j))%Z then Raise IndexError
  else match nth_error l (Z.to_nat j) with
       | Some c => Ok c
       | None => Raise IndexError
       end.

(** [s[-1]] of a non-empty string [String c s]. *)
Fixpoint str_last (c : ascii) (s : string) : ascii :=
  match s with
  | EmptyString => c
  | String c' s' => str_last c' s'
  end.

(** [s[:-1]]: all but the last character (the empty string stays empty). *)
Fixpoint str_init (s : string) : string :=
  match s with
  | EmptyString => EmptyString
  | String c EmptyString => EmptyString
  | String c s' => String c (str_init s')
  end.

(** [s + c] for a one-character [c]. *)
Definition str_snoc (s : string) (c : ascii) : string :=
  (s ++ String c EmptyString)%string.

(** Comparisons of floats, as booleans. *)
Definition Rleb (x y : R) : bool := if Rle_dec x y then true else false.
Definition Rgtb (x y : R) : bool := if Rlt_dec y x then true else false.

End Py.

Export Py.

Notation "'do' x <- m ; k" := (rbind m (fun x => k))
(at level 10, x name, m at level 100, k at level 200).

(** ** Geohash codec *)

Module Geohash.

Local Open Scope string_scope.

Definition __BASE32 : string := "0123456789bcdefghjkmnpqrstuvwxyz".

(** The four directions that [_neighbor] is called with. *)
Inductive dir : Type := right | left | top | bottom.

(** [__NEIGHBORS[d]['even']]. *)
Definition __NEIGHBORS (d : dir) : string :=
  match d with
  | right  => "bc01fg45238967deuvhjyznpkmstqrwx"
  | left   => "238967debc01fg45kmstqrwxuvhjyznp"
  | top    => "p0r21436x8zb9dcf5h7kjnmqesgutwvy"
  | bottom => "14365h7k9dcfesgujnmqp0r2twvyx8zb"
  end.

(** [__BORDERS[d]['even']]. *)
Definition __BORDERS (d : dir) : string :=
  match d with
  | right  => "bcfguvyz"
  | left   => "0145hjnp"
  | top    => "prxz"
  | bottom => "028b"
  end.

(** The table a direction is looked up in, by the parity of the code's
    length: for an odd length the roles of the axes are exchanged. *)
Definition swap_axis (d : dir) : dir :=
  match d with
  | right => top
  | left => bottom
  | top => right
  | bottom => left
  end.

Definition direction_map (odd : bool) (d : dir) : string :=
  if odd then __NEIGHBORS (swap_axis d) else __NEIGHBORS d.

Definition border_map (odd : bool) (d : dir) : string :=
  if odd then __BORDERS (swap_axis d) else __BORDERS d.

(** The pieces of [_neighbor]'s body: the parity of the code's length
    ([type_]), the border test, and the substitution of the last
    character through the neighbour table. *)
Definition is_odd (hashcode : string) : bool :=
  negb (Nat.even (String.length hashcode)).

Definition on_border (hashcode : string) (last : ascii) (direction : dir) : bool :=
  str_contains (border_map (is_odd hashcode) direction) last.

Definition substitute_last (hashcode : string) (last : ascii) (direction : dir)
    (parent : string) : res string :=
  let idx := str_find __BASE32 last in
  do a <- str_getitem __BASE32 idx;
  do b <- str_getitem __BASE32
            (str_find (direction_map (is_odd hashcode) direction) a);
  Ok (str_snoc parent b).

(** [_neighbor(hashcode, direction)].  The test [parent is not None] of
    the last line always succeeds on a [str], so only its first branch
    is kept. *)
Equations? _neighbor (hashcode : string) (direction : dir) : res string
  by wf (String.length hashcode) lt :=
  _neighbor EmptyString _ := Ok "";
  _neighbor (String c s) direction :=
    let last := str_last c s in
    let parent := str_init (String c s) in
    do parent' <- (if on_border (String c s) last direction
                   then _neighbor parent direction
                   else Ok parent);
    substitute_last (String c s) last direction parent'.
Proof.
  assert (H : forall (t : string) (a : ascii),
             (String.length (str_init (String a t)) < S (String.length t))%nat).
  { induction t as [|b t IH]; intros a; simpl; [lia|].
    specialize (IH b). simpl in IH. lia. }
  apply H.
Qed.

(** [neighbors(gh)]: the set of the eight surrounding codes. *)
Definition neighbors (gh : string) : res (gset string) :=
  do n <- _neighbor gh top;
  do s <- _neighbor gh bottom;
  do e <- _neighbor gh right;
  do w <- _neighbor gh left;
  do ne <- _neighbor n right;
  do nw <- _neighbor n left;
  do se <- _neighbor s right;
  do sw <- _neighbor s left;
  Ok ({[n; s; e; w; ne; nw; se; sw]} : gset string).

(** *** [encode_geohash] *)

(** The local variables of [encode_geohash] that the loop updates. *)
Record enc_state : Type := EncState {
  lat_interval : R * R;
  lon_interval : R * R;
  geohash : list ascii;
  bit : Z;
  ch : Z;
  even : bool
}.

Definition bits : list Z := [16; 8; 4; 2; 1]%Z.

Definition enc_init : enc_state :=
  {| lat_interval := (-90, 90)%R; lon_interval := (-180, 180)%R;
     geohash := []; bit := 0; ch := 0; even := true |}.

(** The bisection of one axis: the first half of the loop body. *)
Definition bisect (lat lon : R) (st : enc_state) : res enc_state :=
  if even st then
    let mid := ((fst (lon_interval st) + snd (lon_interval st)) / 2)%R in
    if Rlt_dec mid lon then
      do b <- list_getitem bits (bit st);
      Ok {| lat_interval := lat_interval st;
            lon_interval := (mid, snd (lon_interval st));
            geohash := geohash st; bit := bit st;
            ch := Z.lor (ch st) b; even := even st |}
    else
      Ok {| lat_interval := lat_interval st;
            lon_interval := (fst (lon_interval st), mid);
            geohash := geohash st; bit := bit st;
            ch := ch st; even := even st |}
  else
    let mid := ((fst (lat_interval st) + snd (lat_interval st)) / 2)%R in
    if Rlt_dec mid lat then
      do b <- list_getitem bits (bit st);
      Ok {| lat_interval := (mid, snd (lat_interval st));
            lon_interval := lon_interval st;
            geohash := geohash st; bit := bit st;
            ch := Z.lor (ch st) b; even := even st |}
    else
      Ok {| lat_interval := (fst (lat_interval st), mid);
            lon_interval := lon_interval st;
            geohash := geohash st; bit := bit st;
            ch := ch st; even := even st |}.

(** The second half: flip [even], then advance [bit] or emit a character. *)
Definition advance (st : enc_state) : res enc_state :=
  if (bit st <? 4)%Z then
    Ok {| lat_interval := lat_interval st; lon_interval := lon_interval st;
          geohash := geohash st; bit := (bit st + 1)%Z;
          ch := ch st; even := negb (even st) |}
  else
    do c <- str_getitem __BASE32 (ch st);
    Ok {| lat_interval := lat_interval st; lon_interval := lon_interval st;
          geohash := geohash st ++ [c]; bit := 0%Z;
          ch := 0%Z; even := negb (even st) |}.

Definition encode_body (lat lon : R) (st : enc_state) : res enc_state :=
  do st1 <- bisect lat lon st;
  advance st1.

(** What is left to do: five bits per missing character. *)
Definition enc_measure (precision : Z) (st : enc_state) : nat :=
  (5 * Z.to_nat (precision - Z.of_nat (List.length (geohash st)))
   + Z.to_nat (4 - bit st))%nat.

Definition inspect {A} (a : A) : {b : A | a = b} := exist _ a eq_refl.

(** The [while len(geohash) < precision] loop, then [''.join(geohash)]. *)
Equations? encode_loop (lat lon : R) (precision : Z) (st : enc_state) : res string
  by wf (enc_measure precision st) lt :=
  encode_loop lat lon precision st
    with Z_lt_dec (Z.of_nat (List.length (geohash st))) precision := {
    | Specif.right _ := Ok (string_of_list_ascii (geohash st));
    | Specif.left Hlt with inspect (encode_body lat lon st) := {
        | exist _ (Raise e) _ := Raise e;
        | exist _ (Ok st') Heq := encode_loop lat lon precision st' } }.
Proof.
  clear encode_loop. unfold encode_body, bisect, advance in Heq.
  unfold enc_measure.
  destruct (even st); destruct (Rlt_dec _ _);
    try destruct (list_getitem bits (bit st)); simpl in Heq;
    try discriminate;
    match type of Heq with
    | context [Z.ltb ?a ?b] => destruct (Z.ltb_spec a b)
    end;
    try destruct (str_getitem __BASE32 _); simpl in Heq;
    inversion Heq; subst; simpl; rewrite ?List.length_app; simpl; lia.
Qed.

Definition encode_geohash (lat lon : R) (precision : Z) : res string :=
  encode_loop lat lon precision enc_init.

(** *** Notions used to state the properties of the codec *)

Definition opposite (d : dir) : dir :=
  match d with
  | right => left
  | left => right
  | top => bottom
  | bottom => top
  end.

(** A geohash code: a string over the alphabet [__BASE32]. *)
Definition valid_code (s : string) : bool :=
  forallb (str_contains __BASE32) (list_ascii_of_string s).

(** What [substitute_last] does to the last character alone. *)
Definition subst_char (odd : bool) (d : dir) (c : ascii) : res ascii :=
  do a <- str_getitem __BASE32 (str_find __BASE32 c);
  str_getitem __BASE32 (str_find (direction_map odd d) a).

(** The check of one character of the alphabet: the substitution stays
    in the alphabet, the opposite direction undoes it, and the two agree
    on whether the parent has to move as well. *)
Definition char_sym (odd : bool) (d : dir) (c : ascii) : bool :=
  match subst_char odd d c with
  | Ok c' =>
      str_contains __BASE32 c'
      && match subst_char odd (opposite d) c' with
         | Ok c'' => Ascii.eqb c'' c
         | Raise _ => false
         end
      && Bool.eqb (str_contains (border_map odd d) c)
                  (str_contains (border_map odd (opposite d)) c')
  | Raise _ => false
  end.

(** What the loop keeps true of [bit] and [ch]. *)
Definition enc_inv (st : enc_state) : Prop :=
  (0 <= bit st <= 4)%Z /\ (0 <= ch st < 32)%Z.




(** The last characters of a code and of its eight neighbours, from the
    last character [c] of the code. *)
Definition around_chars (odd : bool) (c : ascii) : res (list ascii) :=
  do n <- subst_char odd top c;
  do s <- subst_char odd bottom c;
  do e <- subst_char odd right c;
  do w <- subst_char odd left c;
  do ne <- subst_char odd right n;
  do nw <- subst_char odd left n;
  do se <- subst_char odd right s;
  do sw <- subst_char odd left s;
  Ok [c; n; s; e; w; ne; nw; se; sw].

Fixpoint distinct_chars (l : list ascii) : bool :=
  match l with
  | [] => true
  | x :: l' => negb (existsb (Ascii.eqb x) l') && distinct_chars l'
  end.

Definition around_ok (odd : bool) (c : ascii) : bool :=
  match around_chars odd c with
  | Ok l => distinct_chars l
  | Raise _ => false
  end.

End Geohash.

(** ** Distances and the staged filter *)

Module Geo.

Local Open Scope R_scope.

Definition R_EARTH : R := 6371000.
Definition THRESH_M : R := 10.
Definition TIME_WINDOW : R := 60.
Definition RELAX_RATIO : R := 12 / 10.

(** [math.radians]. *)
Definition radians (x : R) : R := x * (PI / 180).

(** [math.atan2(y, x)]: the angle of the point [(x, y)], in [(-PI, PI]]. *)
Definition atan2 (y x : R) : R :=
  if Rlt_dec 0 x then atan (y / x)
  else if Rlt_dec x 0 then
    (if Rle_dec 0 y then atan (y / x) + PI else atan (y / x) - PI)
  else if Rlt_dec 0 y then PI / 2
  else if Rlt_dec y 0 then - (PI / 2)
  else 0.

(** The term [a] of [haversine].  [math.sqrt] is applied to [a] and to
    [1 - a]; both are between 0 and 1 whatever the coordinates
    ([GeoFacts.hav_a_range]), so that the square roots are defined. *)
Definition hav_a (lat1 lon1 lat2 lon2 : R) : R :=
  let phi1 := radians lat1 in
  let phi2 := radians lat2 in
  let dphi := radians (lat2 - lat1) in
  let dlambda := radians (lon2 - lon1) in
  sin (dphi / 2) ^ 2 + cos phi1 * cos phi2 * sin (dlambda / 2) ^ 2.

Definition haversine (lat1 lon1 lat2 lon2 : R) : R :=
  let a := hav_a lat1 lon1 lat2 lon2 in
  2 * R_EARTH * atan2 (sqrt a) (sqrt (1 - a)).

Definition equirectangular_m (lat1 lon1 lat2 lon2 : R) : R :=
  let x := radians (lon2 - lon1) * cos (radians ((lat1 + lat2) / 2)) in
  let y := radians (lat2 - lat1) in
  R_EARTH * sqrt (x * x + y * y).

Definition deg_per_m : R := 180 / PI / R_EARTH.

Definition dlat_max (thresh_m : R) : R := thresh_m * deg_per_m.

Definition dlon_max (lat1 thresh_m : R) : R :=
  dlat_max thresh_m / Rmax (2 / 10) (cos (radians lat1)).

Definition bbox_pass (lat1 lon1 lat2 lon2 thresh_m : R) : bool :=
  Rleb (Rabs (lat1 - lat2)) (dlat_max thresh_m)
  && Rleb (Rabs (lon1 - lon2)) (dlon_max lat1 thresh_m).

Definition near_with_stages (lat1 lon1 lat2 lon2 thresh_m relax_ratio : R) : bool :=
  if negb (bbox_pass lat1 lon1 lat2 lon2 thresh_m) then false
  else if Rgtb (equirectangular_m lat1 lon1 lat2 lon2) (thresh_m * relax_ratio)
  then false
  else Rleb (haversine lat1 lon1 lat2 lon2) thresh_m.

(** *** Notions used to state the properties of the distances *)

(** Half the central angle, as [haversine] computes it from [hav_a]. *)
Definition half_angle (a : R) : R := atan2 (sqrt a) (sqrt (1 - a)).

Definition valid_latitude (lat : R) : Prop := -90 <= lat <= 90.

End Geo.

(** ** The agent store and the geohash index *)

Module Engine.

Import Geohash Geo.

Definition GEO_PREC : Z := 8.

(** [class User].  The deque [location_histry] is a list, oldest first. *)
Record User : Type := mkUser {
  user_id : string;
  location_histry : list (R * R);
  last_ts : R;
  last_gh : option string
}.

(** [User(user_id)]. *)
Definition new_User (uid : string) : User :=
  {| user_id := uid; location_histry := []; last_ts := 0%R; last_gh := None |}.

(** [deque(maxlen=20).append]: the oldest entry leaves when full. *)
Definition deque_append {A} (maxlen : nat) (l : list A) (x : A) : list A :=
  let l' := l ++ [x] in
  if (maxlen <? List.length l')%nat then List.tl l' else l'.

(** [User.add_location]; [clock] is what [time.time()] would return. *)
Definition add_location (u : User) (lat lon : R) (ts : option R) (clock : R) : User :=
  let ts := match ts with Some t => t | None => clock end in
  {| user_id := user_id u;
     location_histry := deque_append 20 (location_histry u) (lat, lon);
     last_ts := ts;
     last_gh := last_gh u |}.

(** [User.latest_location]. *)
Definition latest_location (u : User) : option (R * R) :=
  List.last (List.map Some (location_histry u)) None.

Definition set_last_gh (u : User) (gh : string) : User :=
  {| user_id := user_id u; location_histry := location_histry u;
     last_ts := last_ts u; last_gh := Some gh |}.

(** The shared state: the [users] dictionary and [geo_index]. *)
Record State : Type := mkState {
  users : gmap string User;
  geo_index : gmap string (gset string)
}.

Definition initial_state : State := {| users := ∅; geo_index := ∅ |}.

(** Computations on the shared state that may raise. *)
Definition M (A : Type) : Type := State -> res (A * State).

Definition ret {A} (a : A) : M A := fun s => Ok (a, s).
Definition raise {A} (e : exn) : M A := fun _ => Raise e.
Definition bind {A B} (m : M A) (k : A -> M B) : M B :=
  fun s => match m s with
           | Ok (a, s') => k a s'
           | Raise e => Raise e
           end.
Definition lift {A} (r : res A) : M A :=
  fun s => match r with Ok a => Ok (a, s) | Raise e => Raise e end.

Notation "'exec' x <- m ; k" := (bind m (fun x => k))
  (at level 10, x name, m at level 100, k at level 200).

(** [for x in l: acc = body(acc, x)]. *)
Fixpoint for_each {A B} (l : list A) (acc : B) (body : B -> A -> M B) : M B :=
  match l with
  | [] => ret acc
  | x :: l' => exec acc' <- body acc x; for_each l' acc' body
  end.

(** *** Accesses to the two dictionaries *)

(** [user_id in users_dict]. *)
Definition users_contains (uid : string) : M bool :=
  fun s => Ok (bool_decide (is_Some (users s !! uid)), s).

(** [users_dict[user_id] = u]; also the write-back of a mutated record. *)
Definition users_setitem (uid : string) (u : User) : M unit :=
  fun s => Ok (tt, {| users := <[uid := u]> (users s); geo_index := geo_index s |}).

(** [users_dict[user_id]]. *)
Definition users_getitem (uid : string) : M User :=
  fun s => match users s !! uid with
           | Some u => Ok (u, s)
           | None => Raise KeyError
           end.

(** [users_dict.get(user_id)]. *)
Definition users_get (uid : string) : M (option User) :=
  fun s => Ok (users s !! uid, s).

(** [geo_index[k]] on the [defaultdict(set)]: a missing key is first
    bound to a new empty set. *)
Definition index_getitem (k : string) : M (gset string) :=
  fun s => match geo_index s !! k with
           | Some ids => Ok (ids, s)
           | None => Ok (∅, {| users := users s;
                               geo_index := <[k := ∅]> (geo_index s) |})
           end.

(** [geo_index.get(k, set())]: no binding is created. *)
Definition index_get (k : string) : M (gset string) :=
  fun s => Ok (default ∅ (geo_index s !! k), s).

(** The set stored under [k] is replaced by its mutated version. *)
Definition index_store (k : string) (ids : gset string) : M unit :=
  fun s => Ok (tt, {| users := users s; geo_index := <[k := ids]> (geo_index s) |}).

(** [geo_index[k].discard(uid)]. *)
Definition index_discard (k uid : string) : M unit :=
  exec ids <- index_getitem k;
  index_store k (ids ∖ {[uid]}).

(** [geo_index[k].add(uid)]. *)
Definition index_add (k uid : string) : M unit :=
  exec ids <- index_getitem k;
  index_store k (ids ∪ {[uid]}).

(** *** [upsert_user]

    [users_dict] is the [users] component of the state, as in the only
    call of the program. *)
Definition upsert_user (uid : string) (lat lon : R) (ts : option R) (clock : R)
    : M unit :=
  exec known <- users_contains uid;
  exec _ <- (if known then ret tt else users_setitem uid (new_User uid));
  exec u <- users_getitem uid;
  exec _ <- match last_gh u with
            | Some old => index_discard old uid
            | None => ret tt
            end;
  let ts' := match ts with Some t => t | None => clock end in
  let u1 := add_location u lat lon (Some ts') clock in
  exec _ <- users_setitem uid u1;
  exec gh <- lift (encode_geohash lat lon GEO_PREC);
  let u2 := set_last_gh u1 gh in
  exec _ <- users_setitem uid u2;
  index_add gh uid.

(** *** [check_proximity_geohash] *)

(** [u.last_gh or encode_geohash(lat1, lon1, GEO_PREC)]: an empty string
    counts as false. *)
Definition own_bucket (u : User) (lat1 lon1 : R) : res string :=
  match last_gh u with
  | Some g => if String.eqb g "" then encode_geohash lat1 lon1 GEO_PREC else Ok g
  | None => encode_geohash lat1 lon1 GEO_PREC
  end.

(** The body of [for h in cand_hashes]. *)
Definition collect (candidates : gset string) (h : string) : M (gset string) :=
  exec ids <- index_get h;
  ret (candidates ∪ ids).

(** The body of [for vid in candidates]. *)
Definition examine (uid : string) (lat1 lon1 threshold time_window now : R)
    (hits : list (string * R)) (vid : string) : M (list (string * R)) :=
  if String.eqb vid uid then ret hits
  else
    exec v <- users_get vid;
    match v with
    | None => ret hits
    | Some v =>
        match latest_location v with
        | None => ret hits
        | Some (lat2, lon2) =>
            if Rgtb (now - last_ts v) time_window then ret hits
            else if near_with_stages lat1 lon1 lat2 lon2 threshold RELAX_RATIO
            then
              let d := haversine lat1 lon1 lat2 lon2 in
              ret (hits ++ [(vid, d)])
            else ret hits
        end
    end.

(** [clock] is the value of [time.time()] at the start of the call.  The
    two [for] loops run over the elements of a set, in an order that the
    program does not determine; [elements] fixes one. *)
Definition check_proximity_geohash (uid : string) (threshold time_window : R)
    (clock : R) : M (list (string * R)) :=
  let now := clock in
  exec u <- users_get uid;
  match u with
  | None => ret []
  | Some u =>
      match latest_location u with
      | None => ret []
      | Some (lat1, lon1) =>
          exec gh <- lift (own_bucket u lat1 lon1);
          exec nb <- lift (neighbors gh);
          let cand_hashes : gset string := {[gh]} ∪ nb in
          exec candidates <- for_each (elements cand_hashes) ∅ collect;
          for_each (elements candidates) []
            (examine uid lat1 lon1 threshold time_window now)
      end
  end.

(** *** A sequence of [upsert_user] calls *)

(** The arguments of one call, and what [time.time()] returns in it. *)
Record upsert_call : Type := mkCall {
  call_uid : string;
  call_lat : R;
  call_lon : R;
  call_ts : option R;
  call_clock : R
}.

Definition run_upserts (calls : list upsert_call) : M unit :=
  for_each calls tt
    (fun _ c => upsert_user (call_uid c) (call_lat c) (call_lon c)
                  (call_ts c) (call_clock c)).

(** *** Notions used to state the properties of the engine *)

(** [reads m]: [m] never raises and returns in the state it started in. *)
Definition reads {A} (m : M A) : Prop :=
  forall s, exists a, m s = Ok (a, s).

(** The set stored in the index under [c], empty when [c] is unbound. *)
Definition index_set (s : State) (c : string) : gset string :=
  default ∅ (geo_index s !! c).

(** The decision of [examine] on one candidate, as a function of the
    state: the distance of the hit, if it is one. *)
Definition accepts (s : State) (uid : string)
    (lat1 lon1 threshold time_window now : R) (vid : string) : option R :=
  if String.eqb vid uid then None
  else match users s !! vid with
       | None => None
       | Some v =>
           match latest_location v with
           | None => None
           | Some (lat2, lon2) =>
               if Rgtb (now - last_ts v) time_window then None
               else if near_with_stages lat1 lon1 lat2 lon2 threshold RELAX_RATIO
               then Some (haversine lat1 lon1 lat2 lon2)
               else None
           end
       end.

Definition hit_of (s : State) (uid : string)
    (lat1 lon1 threshold time_window now : R) (vid : string) : list (string * R) :=
  match accepts s uid lat1 lon1 threshold time_window now vid with
  | Some d => [(vid, d)]
  | None => []
  end.

(** The record of [uid] after the call. *)
Definition upserted (u : User) (lat lon : R) (ts : option R) (clock : R)
    (gh : string) : User :=
  set_last_gh
    (add_location u lat lon
       (Some (match ts with Some t => t | None => clock end)) clock) gh.

(** The index once [uid] has left its old bucket, if it had one. *)
Definition after_discard (uid : string) (old : option string) (s : State) : State :=
  match old with
  | Some old =>
      {| users := users s;
         geo_index := <[old := index_set s old ∖ {[uid]}]> (geo_index s) |}
  | None => s
  end.

(** The state in which a call of [upsert_user] ends, in closed form; [gh]
    is the code of the new coordinates. *)
Definition upsert_result (uid : string) (lat lon : R) (ts : option R) (clock : R)
    (gh : string) (s : State) : State :=
  let u := default (new_User uid) (users s !! uid) in
  let s2 := after_discard uid (last_gh u) s in
  {| users := <[uid := upserted u lat lon ts clock gh]> (users s);
     geo_index := <[gh := index_set s2 gh ∪ {[uid]}]> (geo_index s2) |}.

Definition valid_coordinates (lat lon : R) : Prop :=
  (-90 <= lat <= 90)%R /\ (-180 <= lon <= 180)%R.

(** The index holds [x] under [c] exactly when [c] is the bucket recorded
    for [x]. *)
Definition index_consistent (s : State) : Prop :=
  forall x c,
    x ∈ index_set s c <-> exists u, users s !! x = Some u /\ last_gh u = Some c.

Definition agent_at (name : string) (lat lon ts : R) (gh : string) : User :=
  {| user_id := name; location_histry := [(lat, lon)]; last_ts := ts;
     last_gh := Some gh |}.

(** "alice" and "bob" at Tokyo station, reported at times 0 and 1. *)
Definition alice : User := agent_at "alice" 35.681236 139.767125 0 "xn76urx6".
Definition bob : User := agent_at "bob" 35.681236 139.767125 1 "xn76urx6".

Definition meeting_store : State :=
  {| users := <["bob" := bob]> (<["alice" := alice]> ∅);
     geo_index := <["xn76urx6" := {["alice"; "bob"]}]> ∅ |}.

(** The store once "alice" alone has reported. *)
Definition alice_alone : State :=
  {| users := <["alice" := alice]> ∅;
     geo_index := <["xn76urx6" := {["alice"]}]> ∅ |}.

(** *** [check_proximity]: the exhaustive search kept for comparison *)





(** *** The two engine calls of the handler [location] *)

(** [upsert_user(users, user_id, latitude, longitude, ts=time.time())],
    then [check_proximity_geohash(users, user_id, THRESH_M, TIME_WINDOW)];
    [t_report] and [t_query] are what the two calls of [time.time()]
    return.  The parsing of the request, the messages printed, the
    notification and the rounding of the distances in the response are
    left out. *)
Definition report_location (uid : string) (lat lon : R) (t_report t_query : R)
    : M (list (string * R)) :=
  exec _ <- upsert_user uid lat lon (Some t_report) t_report;
  check_proximity_geohash uid THRESH_M TIME_WINDOW t_query.

(** *** Notions used to state further properties of the engine *)


(** The positions that the calls report for [uid], oldest first. *)
Definition reported (uid : string) (calls : list upsert_call) : list (R * R) :=
  (fun c => (call_lat c, call_lon c))
    <$> filter (fun c => call_uid c = uid) calls.

(** The history of [uid] in the store, empty for an unknown agent. *)
Definition history_of (s : State) (uid : string) : list (R * R) :=
  match users s !! uid with
  | Some u => location_histry u
  | None => []
  end.

(** A record as [upsert_user] leaves it: filed under its own identifier,
    with a latest location, whose code is the recorded bucket. *)
Definition record_ok (x : string) (u : User) : Prop :=
  user_id u = x
  /\ (1 <= List.length (location_histry u) <= 20)%nat
  /\ exists lat lon gh,
       latest_location u = Some (lat, lon)
       /\ encode_geohash lat lon GEO_PREC = Ok gh
       /\ last_gh u = Some gh.

Definition records_ok (s : State) : Prop :=
  forall x u, users s !! x = Some u -> record_ok x u.

End Engine.

(** * Properties *)

(** ** Strings seen from their last character *)

Module PyFacts.

Lemma str_last_snoc c s a : str_last c (str_snoc s a) = a.
Proof.
  revert c. induction s as [|c' s IH]; intros c; simpl; [reflexivity|apply IH].
Qed.

Lemma str_init_snoc s a : str_init (str_snoc s a) = s.
Proof.
  induction s as [|c s IH]; [reflexivity|].
  rewrite <- IH at 2. destruct s; reflexivity.
Qed.

Lemma str_length_snoc s a : String.length (str_snoc s a) = S (String.length s).
Proof.
  unfold str_snoc. induction s as [|c s IH]; simpl; [reflexivity|].
  now rewrite IH.
Qed.

Lemma str_snoc_cons c s a : str_snoc (String c s) a = String c (str_snoc s a).
Proof. reflexivity. Qed.

(** Every non-empty string is some [s + a]. *)
Lemma str_snoc_destruct c s : exists s' a, String c s = str_snoc s' a.
Proof.
  revert c. induction s as [|c' s IH]; intros c.
  - exists EmptyString, c. reflexivity.
  - destruct (IH c') as (s' & a & E). exists (String c s'), a.
    rewrite str_snoc_cons, <- E. reflexivity.
Qed.

(** Induction on strings from the right. *)
Lemma str_snoc_ind (P : string -> Prop) :
  P EmptyString ->
  (forall s a, P s -> P (str_snoc s a)) ->
  forall s, P s.
Proof.
  intros H0 Hs s.
  remember (String.length s) as n eqn:Hn. revert s Hn.
  induction n as [|n IH]; intros s Hn.
  - destruct s; [exact H0|discriminate].
  - destruct s as [|c s]; [discriminate|].
    destruct (str_snoc_destruct c s) as (s' & a & E). rewrite E in *.
    apply Hs, IH. rewrite str_length_snoc in Hn. congruence.
Qed.

Lemma str_find_range s c :
  (-1 <= str_find s c < Z.of_nat (String.length s))%Z.
Proof.
  induction s as [|a s IH]; simpl; [lia|].
  destruct (Ascii.eqb a c); [lia|].
  destruct (Z.ltb_spec (str_find s c) 0); lia.
Qed.

(** Indexing succeeds from [-len] to [len - 1]. *)
Lemma str_getitem_ok s i :
  (- Z.of_nat (String.length s) <= i < Z.of_nat (String.length s))%Z ->
  exists c, str_getitem s i = Ok c.
Proof.
  intros Hi. unfold str_getitem.
  set (n := Z.of_nat (String.length s)) in *.
  set (j := if (i <? 0)%Z then (i + n)%Z else i).
  assert (Hj : (0 <= j < n)%Z).
  { subst j. destruct (Z.ltb_spec i 0); lia. }
  destruct (Z.ltb_spec j 0); [lia|]. destruct (Z.leb_spec n j); [lia|].
  simpl. destruct (String.get (Z.to_nat j) s) as [c|] eqn:E; [eauto|].
  exfalso. assert (Hlt : (Z.to_nat j < String.length s)%nat) by lia.
  clear - E Hlt. revert E Hlt. generalize (Z.to_nat j) as k.
  induction s as [|a s IH]; intros k E Hlt; simpl in *; [lia|].
  destruct k; [discriminate|]. apply (IH k E). lia.
Qed.

Lemma str_contains_In s c :
  str_contains s c = true <-> In c (list_ascii_of_string s).
Proof.
  induction s as [|a s IH]; simpl; [split; [discriminate|tauto]|].
  rewrite orb_true_iff, IH, Ascii.eqb_eq. tauto.
Qed.

Lemma str_get_contains s n c : String.get n s = Some c -> str_contains s c = true.
Proof.
  revert n. induction s as [|a s IH]; intros n H; simpl in *; [discriminate|].
  destruct n as [|n].
  - inversion H; subst. now rewrite Ascii.eqb_refl.
  - rewrite (IH n H). apply orb_true_r.
Qed.

(** What indexing returns is a character of the string. *)
Lemma str_getitem_contains s i c : str_getitem s i = Ok c -> str_contains s c = true.
Proof.
  unfold str_getitem. destruct (_ || _); [discriminate|].
  destruct (String.get _ s) as [c'|] eqn:E; [|discriminate].
  intros H; inversion H; subst. eapply str_get_contains; eauto.
Qed.

End PyFacts.

(** ** The geohash codec *)

Module GeohashFacts.

Import Geohash PyFacts.
Local Open Scope string_scope.

Lemma substitute_last_char h last d parent :
  substitute_last h last d parent =
  do b <- subst_char (is_odd h) d last; Ok (str_snoc parent b).
Proof.
  unfold substitute_last, subst_char.
  destruct (str_getitem __BASE32 (str_find __BASE32 last)); simpl; reflexivity.
Qed.

Lemma is_odd_snoc p a : is_odd (str_snoc p a) = negb (is_odd p).
Proof.
  unfold is_odd. rewrite str_length_snoc, Nat.even_succ, <- Nat.negb_even.
  reflexivity.
Qed.

Lemma is_odd_length s s' :
  String.length s = String.length s' -> is_odd s = is_odd s'.
Proof. unfold is_odd. now intros ->. Qed.

(** The defining equation of [_neighbor], on a code [p + a]. *)
Lemma _neighbor_snoc p a d :
  _neighbor (str_snoc p a) d =
  do parent' <- (if str_contains (border_map (negb (is_odd p)) d) a
                 then _neighbor p d else Ok p);
  do b <- subst_char (negb (is_odd p)) d a;
  Ok (str_snoc parent' b).
Proof.
  rewrite <- (is_odd_snoc p a).
  assert (E : exists c s, str_snoc p a = String c s).
  { destruct p; simpl; eauto. }
  destruct E as (c & s & E).
  assert (Hl : str_last c s = a).
  { destruct p as [|c' p]; inversion E; subst; [reflexivity|apply str_last_snoc]. }
  assert (Hi : str_init (String c s) = p) by (rewrite <- E; apply str_init_snoc).
  rewrite E. simp _neighbor. cbv zeta. unfold on_border.
  rewrite Hl, Hi.
  destruct (if str_contains _ a then _ else _); simpl; [|reflexivity].
  apply substitute_last_char.
Qed.

Lemma char_sym_all odd d :
  forallb (char_sym odd d) (list_ascii_of_string __BASE32) = true.
Proof. destruct odd, d; vm_compute; reflexivity. Qed.

Lemma char_sym_holds odd d a :
  str_contains __BASE32 a = true -> char_sym odd d a = true.
Proof.
  intros Ha.
  exact (proj1 (forallb_forall (char_sym odd d) (list_ascii_of_string __BASE32))
           (char_sym_all odd d) a (proj1 (str_contains_In __BASE32 a) Ha)).
Qed.

Lemma char_sym_spec odd d a :
  str_contains __BASE32 a = true ->
  exists a',
    subst_char odd d a = Ok a'
    /\ str_contains __BASE32 a' = true
    /\ subst_char odd (opposite d) a' = Ok a
    /\ str_contains (border_map odd d) a
       = str_contains (border_map odd (opposite d)) a'.
Proof.
  intros Ha. apply (char_sym_holds odd d) in Ha. revert Ha.
  unfold char_sym. intros Hall.
  destruct (subst_char odd d a) as [a'|] eqn:E1; [|discriminate].
  apply andb_prop in Hall as [Hall Hb]. apply andb_prop in Hall as [Hin Hback].
  destruct (subst_char odd (opposite d) a') as [a''|] eqn:E2; [|discriminate].
  apply Ascii.eqb_eq in Hback. subst a''.
  apply Bool.eqb_prop in Hb. eauto.
Qed.

Lemma forallb_snoc (f : ascii -> bool) p a :
  forallb f (list_ascii_of_string (str_snoc p a))
  = forallb f (list_ascii_of_string p) && f a.
Proof.
  unfold str_snoc. induction p as [|c p IH]; simpl.
  - now rewrite andb_true_r.
  - rewrite IH. now rewrite andb_assoc.
Qed.

Lemma valid_code_snoc p a :
  valid_code (str_snoc p a) = valid_code p && str_contains __BASE32 a.
Proof. apply forallb_snoc. Qed.

(** One step in a direction, then one step back. *)
Lemma neighbor_opposite c :
  valid_code c = true ->
  forall d, exists c',
    _neighbor c d = Ok c'
    /\ valid_code c' = true
    /\ String.length c' = String.length c
    /\ _neighbor c' (opposite d) = Ok c.
Proof.
  induction c as [|p a IH] using str_snoc_ind; intros Hv d.
  - exists "". simp _neighbor. auto.
  - rewrite valid_code_snoc in Hv. apply andb_prop in Hv as [Hp Ha].
    specialize (IH Hp d). destruct IH as (p' & Hn & Hv' & Hlen & Hback).
    destruct (char_sym_spec (negb (is_odd p)) d a Ha)
      as (a' & Hs & Ha' & Hsback & Hborder).
    rewrite _neighbor_snoc, Hs.
    destruct (str_contains (border_map (negb (is_odd p)) d) a) eqn:Hb.
    + rewrite Hn. cbn [rbind]. exists (str_snoc p' a'). split; [reflexivity|].
      rewrite valid_code_snoc, Hv', Ha', !str_length_snoc, Hlen.
      repeat split.
      rewrite _neighbor_snoc, (is_odd_length p' p Hlen), <- Hborder, Hback, Hsback.
      cbn [rbind]. reflexivity.
    + cbn [rbind]. exists (str_snoc p a'). split; [reflexivity|].
      rewrite valid_code_snoc, Hp, Ha', !str_length_snoc.
      repeat split.
      rewrite _neighbor_snoc, <- Hborder, Hsback. cbn [rbind]. reflexivity.
Qed.

Lemma table_length odd d : String.length (direction_map odd d) = 32%nat.
Proof. destruct odd, d; reflexivity. Qed.

Lemma base32_length : String.length __BASE32 = 32%nat.
Proof. reflexivity. Qed.

Lemma subst_char_total odd d c : exists b, subst_char odd d c = Ok b.
Proof.
  unfold subst_char.
  destruct (str_getitem_ok __BASE32 (str_find __BASE32 c)) as (a & ->).
  { pose proof (str_find_range __BASE32 c) as H.
    rewrite base32_length in *. lia. }
  cbn [rbind].
  apply str_getitem_ok.
  pose proof (str_find_range (direction_map odd d) a) as H.
  rewrite table_length in H. rewrite base32_length. lia.
Qed.

(** [_neighbor] never raises, on any string, and keeps the length. *)
Lemma _neighbor_total s d :
  exists r, _neighbor s d = Ok r /\ String.length r = String.length s.
Proof.
  induction s as [|p a IH] using str_snoc_ind.
  - exists "". simp _neighbor. auto.
  - rewrite _neighbor_snoc.
    destruct (subst_char_total (negb (is_odd p)) d a) as (b & ->).
    destruct IH as (p' & -> & Hl).
    destruct (str_contains _ a); cbn [rbind]; eexists; split; try reflexivity;
      rewrite !str_length_snoc; congruence.
Qed.

Lemma neighbors_total gh : exists nb, neighbors gh = Ok nb.
Proof.
  unfold neighbors.
  destruct (_neighbor_total gh top) as (n & -> & _).
  destruct (_neighbor_total gh bottom) as (s & -> & _).
  destruct (_neighbor_total gh right) as (e & -> & _).
  destruct (_neighbor_total gh left) as (w & -> & _).
  cbn [rbind].
  destruct (_neighbor_total n right) as (ne & -> & _).
  destruct (_neighbor_total n left) as (nw & -> & _).
  destruct (_neighbor_total s right) as (se & -> & _).
  destruct (_neighbor_total s left) as (sw & -> & _).
  cbn [rbind]. eauto.
Qed.

(** C9.  Neighbor symmetry: on every geohash code (a string over the
    base-32 alphabet), going right and then left gives the code back,
    and so does going to the top and then to the bottom.  The tables wrap
    around at the poles and at the antimeridian, so no code is excepted. *)
Theorem neighbor_symmetry (c : string) :
  valid_code c = true ->
  (do x <- _neighbor c right; _neighbor x left) = Ok c
  /\ (do x <- _neighbor c top; _neighbor x bottom) = Ok c.
Proof.
  intros Hv. split.
  - destruct (neighbor_opposite c Hv right) as (c' & -> & _ & _ & Hb). exact Hb.
  - destruct (neighbor_opposite c Hv top) as (c' & -> & _ & _ & Hb). exact Hb.
Qed.

Lemma neighbor_symmetry_witness :
  valid_code "xn76urwe" = true
  /\ (do x <- _neighbor "xn76urwe" right; _neighbor x left) = Ok "xn76urwe"
  /\ (do x <- _neighbor "xn76urwe" top; _neighbor x bottom) = Ok "xn76urwe".
Proof.
  split; [vm_compute; reflexivity|].
  apply (neighbor_symmetry "xn76urwe"). vm_compute; reflexivity.
Defined.

(** Outside the alphabet the symmetry is lost: [find] answers [-1], and
    index [-1] of [__BASE32] is its last character. *)
Example neighbor_outside_alphabet :
  valid_code "a" = false
  /\ (do x <- _neighbor "a" right; _neighbor x left) = Ok "z".
Proof. split; vm_compute; reflexivity. Qed.

(** At the edges of the map the tables wrap around: to the right of the
    last cell before the antimeridian is the first cell after it, and
    above the northernmost row is the southernmost one. *)
Example neighbor_across_antimeridian :
  _neighbor "rzzzzzzz" right = Ok "2pbpbpbp"
  /\ _neighbor "2pbpbpbp" left = Ok "rzzzzzzz".
Proof. split; vm_compute; reflexivity. Qed.

Example neighbor_over_pole :
  _neighbor "gzzzzzzz" top = Ok "5bpbpbpb"
  /\ _neighbor "5bpbpbpb" bottom = Ok "gzzzzzzz".
Proof. split; vm_compute; reflexivity. Qed.

(** Inside the map they follow the grid: the cells to the north and to
    the east of Tokyo station. *)
Example neighbor_tokyo :
  _neighbor "xn76urx6" top = Ok "xn76urx7"
  /\ _neighbor "xn76urx6" right = Ok "xn76urxd".
Proof. split; vm_compute; reflexivity. Qed.

(** *** [encode_geohash] *)

Lemma bisect_frame lat lon st st1 :
  bisect lat lon st = Ok st1 ->
  geohash st1 = geohash st /\ bit st1 = bit st /\ even st1 = even st.
Proof.
  unfold bisect. intros H.
  destruct (even st); destruct (Rlt_dec _ _);
    try destruct (list_getitem bits (bit st)); simpl in H;
    inversion H; subst; simpl; auto.
Qed.

Lemma encode_body_decreases lat lon precision st st' :
  (Z.of_nat (List.length (geohash st)) < precision)%Z ->
  encode_body lat lon st = Ok st' ->
  (enc_measure precision st' < enc_measure precision st)%nat.
Proof.
  unfold encode_body. intros Hlt H.
  destruct (bisect lat lon st) as [st1|e] eqn:Hb; simpl in H; [|discriminate].
  apply bisect_frame in Hb as (Hg & Hbit & _).
  unfold advance in H. unfold enc_measure. rewrite <- Hg, <- Hbit.
  rewrite <- Hg in Hlt.
  destruct (Z.ltb_spec (bit st1) 4%Z).
  - inversion H; subst; simpl. lia.
  - destruct (str_getitem __BASE32 (ch st1)); simpl in H; inversion H; subst; simpl.
    rewrite List.length_app. simpl. lia.
Qed.

Lemma lor_below_32 a b :
  (0 <= a < 32)%Z -> (0 <= b < 32)%Z -> (0 <= Z.lor a b < 32)%Z.
Proof.
  intros Ha Hb. split; [apply Z.lor_nonneg; lia|].
  destruct (Z.eq_dec (Z.lor a b) 0%Z) as [->|Hne]; [lia|].
  change 32%Z with (2 ^ 5)%Z. apply Z.log2_lt_pow2.
  - assert (0 <= Z.lor a b)%Z by (apply Z.lor_nonneg; lia). lia.
  - rewrite Z.log2_lor by lia.
    assert (Hl : forall x, (0 <= x < 32)%Z -> (Z.log2 x < 5)%Z).
    { intros x Hx. destruct (Z.eq_dec x 0%Z) as [->|]; [reflexivity|].
      apply Z.log2_lt_pow2; [lia|]. change (2 ^ 5)%Z with 32%Z. lia. }
    specialize (Hl a Ha) as Hla. specialize (Hl b Hb) as Hlb. lia.
Qed.

Lemma bits_getitem_ok i :
  (0 <= i <= 4)%Z -> exists b, list_getitem bits i = Ok b /\ (0 <= b < 32)%Z.
Proof.
  intros Hi.
  assert (H : (i = 0 \/ i = 1 \/ i = 2 \/ i = 3 \/ i = 4)%Z) by lia.
  destruct H as [->|[->|[->|[->| ->]]]]; eexists; (split; [reflexivity|lia]).
Qed.

Lemma bisect_ok lat lon st :
  enc_inv st ->
  exists st1, bisect lat lon st = Ok st1 /\ enc_inv st1.
Proof.
  intros [Hbit Hch]. unfold bisect.
  destruct (bits_getitem_ok (bit st) Hbit) as (b & Hb & Hb32).
  pose proof (lor_below_32 _ _ Hch Hb32) as Hlor.
  destruct (even st); destruct (Rlt_dec _ _); rewrite ?Hb; cbn [rbind];
    eexists; (split; [reflexivity|]); split; assumption.
Qed.

Lemma advance_ok st1 :
  enc_inv st1 ->
  exists st', advance st1 = Ok st' /\ enc_inv st'
    /\ (List.length (geohash st') <= S (List.length (geohash st1)))%nat.
Proof.
  intros [Hbit Hch]. unfold advance.
  destruct (Z.ltb_spec (bit st1) 4%Z).
  - eexists; split; [reflexivity|]. unfold enc_inv; simpl. lia.
  - destruct (str_getitem_ok __BASE32 (ch st1)) as (c & ->).
    { rewrite base32_length. lia. }
    cbn [rbind]. eexists; split; [reflexivity|]. unfold enc_inv; simpl.
    rewrite List.length_app; simpl. lia.
Qed.

(** One turn of the loop never raises and adds at most one character. *)
Lemma encode_body_ok lat lon st :
  enc_inv st ->
  exists st', encode_body lat lon st = Ok st' /\ enc_inv st'
    /\ (List.length (geohash st') <= S (List.length (geohash st)))%nat.
Proof.
  intros Hinv. unfold encode_body.
  destruct (bisect_ok lat lon st Hinv) as (st1 & Hb & Hinv1).
  rewrite Hb. cbn [rbind].
  apply bisect_frame in Hb as (Hg & _). rewrite <- Hg.
  apply advance_ok, Hinv1.
Qed.

Lemma string_of_list_ascii_length l :
  String.length (string_of_list_ascii l) = List.length l.
Proof. induction l; simpl; congruence. Qed.

(** The loop ends, without raising, on a code of [precision] characters. *)
Lemma encode_loop_length lat lon precision st :
  enc_inv st ->
  (Z.of_nat (List.length (geohash st)) <= precision)%Z ->
  exists code,
    encode_loop lat lon precision st = Ok code
    /\ Z.of_nat (String.length code) = precision.
Proof.
  funelim (encode_loop lat lon precision st); intros Hinv Hle.
  - eexists; split; [reflexivity|].
    rewrite string_of_list_ascii_length. lia.
  - destruct (encode_body_ok lat lon st Hinv) as (st2 & Hst2 & Hinv2 & Hlen).
    rewrite Heq in Hst2. inversion Hst2; subst st2.
    apply H; [assumption|lia].
  - destruct (encode_body_ok lat lon st Hinv) as (st2 & Hst2 & _).
    congruence.
Qed.

Lemma encode_geohash_length lat lon precision :
  (0 <= precision)%Z ->
  exists code,
    encode_geohash lat lon precision = Ok code
    /\ Z.of_nat (String.length code) = precision.
Proof.
  intros Hp. apply encode_loop_length.
  - unfold enc_inv, enc_init; simpl; lia.
  - simpl. lia.
Qed.

(** *** Running [encode_geohash] *)

(** The loop, one turn at a time. *)
Lemma encode_loop_unfold lat lon precision st :
  encode_loop lat lon precision st =
  if Z_lt_dec (Z.of_nat (List.length (geohash st))) precision then
    match encode_body lat lon st with
    | Ok st' => encode_loop lat lon precision st'
    | Raise e => Raise e
    end
  else Ok (string_of_list_ascii (geohash st)).
Proof.
  funelim (encode_loop lat lon precision st);
    match goal with E : Z_lt_dec _ _ = _ |- _ => rewrite E end;
    try match goal with E : encode_body _ _ _ = _ |- _ => rewrite E end;
    reflexivity.
Qed.

(** Settles the comparison of two concrete reals in the goal. *)
Ltac decide_Rlt :=
  match goal with
  | |- context [Rlt_dec ?a ?b] =>
      let H := fresh in
      first
        [ assert (H : Rlt a b) by lra;
          destruct (Rlt_dec a b) as [_|?]; [clear H|contradiction]
        | assert (H : ~ Rlt a b) by lra;
          destruct (Rlt_dec a b) as [?|_]; [contradiction|clear H] ]
  end.

(** Names the midpoint that the goal compares with, so that the bounds
    of the intervals stay small. *)
Ltac name_midpoint :=
  match goal with
  | |- context [Rlt_dec ?a ?b] =>
      let m := fresh "mid" in
      let E := fresh "Emid" in
      remember a as m eqn:E
  end.

Ltac eval_in_goal f :=
  repeat match goal with
  | |- context [f ?a ?b] =>
      let v := eval vm_compute in (f a b) in
      progress change (f a b) with v
  end.

(** One turn of the loop on concrete coordinates. *)
Ltac encode_turn :=
  rewrite encode_loop_unfold;
  match goal with
  | |- context [Z_lt_dec ?a ?b] =>
      let H := fresh in
      destruct (Z_lt_dec a b) as [_|H]; [|exfalso; simpl in H; lia]
  end;
  unfold encode_body, bisect;
  cbn [even lon_interval lat_interval geohash bit ch fst snd negb];
  name_midpoint;
  decide_Rlt;
  eval_in_goal (@list_getitem Z);
  cbn [rbind]; unfold advance;
  cbn [even lon_interval lat_interval geohash bit ch fst snd negb];
  eval_in_goal Z.ltb; cbv iota;
  eval_in_goal str_getitem;
  cbn [rbind].

Ltac encode_run :=
  unfold encode_geohash, enc_init;
  do 40 encode_turn;
  rewrite encode_loop_unfold;
  match goal with
  | |- context [Z_lt_dec ?a ?b] =>
      let H := fresh in
      destruct (Z_lt_dec a b) as [H|_]; [exfalso; simpl in H; lia|]
  end;
  reflexivity.

(** The comparison with the midpoint is strict: the origin falls in the
    south-west cell. *)
Example encode_origin : encode_geohash 0 0 8 = Ok "7zzzzzzz".
Proof. encode_run. Qed.

Example encode_tokyo : encode_geohash 35.681236 139.767125 8 = Ok "xn76urx6".
Proof. encode_run. Qed.

(** A latitude beyond the pole is encoded as the pole is. *)
Example encode_latitude_100 :
  encode_geohash 100 0 8 = Ok "gzzzzzzz"
  /\ encode_geohash 90 0 8 = Ok "gzzzzzzz".
Proof. split; encode_run. Qed.

(** The two sides of the antimeridian, on the equator: neighbouring
    cells (see [neighbor_across_antimeridian]). *)
Example encode_antimeridian :
  encode_geohash 0 180 8 = Ok "rzzzzzzz"
  /\ encode_geohash 0 (-180) 8 = Ok "2pbpbpbp".
Proof. split; encode_run. Qed.

(** *** Further properties of the codec *)

Lemma str_snoc_inj s a s' a' : str_snoc s a = str_snoc s' a' -> s = s' /\ a = a'.
Proof.
  revert s'. induction s as [|c s IH]; intros [|c' s'] H.
  - inversion H. auto.
  - inversion H as [[E1 E2]]. destruct s'; discriminate.
  - inversion H as [[E1 E2]]. destruct s; discriminate.
  - rewrite !str_snoc_cons in H. inversion H as [[E1 E2]].
    apply IH in E2 as [-> ->]. auto.
Qed.

(** The shape of a neighbour: the parent, moved or not, and the last
    character substituted. *)
Lemma neighbor_shape p a d :
  valid_code (str_snoc p a) = true ->
  exists p' a',
    _neighbor (str_snoc p a) d = Ok (str_snoc p' a')
    /\ subst_char (negb (is_odd p)) d a = Ok a'
    /\ String.length p' = String.length p
    /\ valid_code (str_snoc p' a') = true.
Proof.
  intros Hv.
  destruct (neighbor_opposite _ Hv d) as (c' & Hn & Hv' & _).
  rewrite _neighbor_snoc in Hn.
  destruct (subst_char_total (negb (is_odd p)) d a) as (a' & Ha').
  destruct (_neighbor_total p d) as (q & Hq & Hlen).
  rewrite Ha', Hq in Hn.
  destruct (str_contains (border_map (negb (is_odd p)) d) a) eqn:Hb;
    cbn [rbind] in Hn; inversion Hn; subst c'.
  - exists q, a'. rewrite _neighbor_snoc, Ha', Hb, Hq. cbn [rbind]. auto.
  - exists p, a'. rewrite _neighbor_snoc, Ha', Hb. cbn [rbind]. auto.
Qed.

(** X6.  [_neighbor] never raises, on any string and in any direction,
    and its result has the length of its argument: a character outside
    the alphabet is read as [find]'s [-1], the last index. *)
Theorem neighbor_never_raises (s : string) (d : dir) :
  exists r, _neighbor s d = Ok r /\ String.length r = String.length s.
Proof. apply _neighbor_total. Qed.

(** X7.  On geohash codes [_neighbor] gives geohash codes: the neighbour
    of a string over the base-32 alphabet is over the alphabet, and as
    long. *)
Theorem neighbor_of_code_is_code (c : string) (d : dir) :
  valid_code c = true ->
  exists c',
    _neighbor c d = Ok c'
    /\ valid_code c' = true
    /\ String.length c' = String.length c.
Proof.
  intros Hv. destruct (neighbor_opposite c Hv d) as (c' & H1 & H2 & H3 & _).
  eauto.
Qed.

Lemma neighbor_of_code_is_code_witness :
  valid_code "xn76urx6" = true
  /\ exists c',
       _neighbor "xn76urx6" top = Ok c'
       /\ valid_code c' = true
       /\ String.length c' = String.length "xn76urx6".
Proof.
  assert (Hv : valid_code "xn76urx6" = true) by (vm_compute; reflexivity).
  split; [exact Hv|]. exact (neighbor_of_code_is_code "xn76urx6" top Hv).
Defined.

Lemma opposite_involutive d : opposite (opposite d) = d.
Proof. now destruct d. Qed.

(** X8.  In each of the four directions [_neighbor] is one-to-one on
    geohash codes: two codes with the same neighbour are the same code. *)
Theorem neighbor_injective (c1 c2 : string) (d : dir) :
  valid_code c1 = true -> valid_code c2 = true ->
  _neighbor c1 d = _neighbor c2 d ->
  c1 = c2.
Proof.
  intros H1 H2 E.
  destruct (neighbor_opposite c1 H1 d) as (n1 & Hn1 & _ & _ & Hb1).
  destruct (neighbor_opposite c2 H2 d) as (n2 & Hn2 & _ & _ & Hb2).
  rewrite Hn1, Hn2 in E. inversion E; subst n2. congruence.
Qed.

Lemma neighbor_injective_witness :
  valid_code "xn76urx6" = true
  /\ _neighbor "xn76urx6" right = _neighbor "xn76urx6" right
  /\ "xn76urx6" = "xn76urx6".
Proof.
  assert (Hv : valid_code "xn76urx6" = true) by (vm_compute; reflexivity).
  split; [exact Hv|]. split; [reflexivity|].
  exact (neighbor_injective "xn76urx6" "xn76urx6" right Hv Hv eq_refl).
Defined.

(** X9.  Every direction is undone by the opposite one, also left by
    right and bottom by top: on a geohash code, a step and the step back
    give the code again. *)
Theorem neighbor_step_back (c : string) (d : dir) :
  valid_code c = true ->
  (do x <- _neighbor c d; _neighbor x (opposite d)) = Ok c.
Proof.
  intros Hv. destruct (neighbor_opposite c Hv d) as (c' & -> & _ & _ & Hb).
  exact Hb.
Qed.

Lemma neighbor_step_back_witness :
  valid_code "2pbpbpbp" = true
  /\ (do x <- _neighbor "2pbpbpbp" left; _neighbor x (opposite left))
     = Ok "2pbpbpbp".
Proof.
  assert (Hv : valid_code "2pbpbpbp" = true) by (vm_compute; reflexivity).
  split; [exact Hv|]. exact (neighbor_step_back "2pbpbpbp" left Hv).
Defined.

Lemma around_ok_all odd :
  forallb (around_ok odd) (list_ascii_of_string __BASE32) = true.
Proof. destruct odd; vm_compute; reflexivity. Qed.

Lemma around_ok_holds odd a :
  str_contains __BASE32 a = true -> around_ok odd a = true.
Proof.
  intros Ha.
  exact (proj1 (forallb_forall (around_ok odd) (list_ascii_of_string __BASE32))
           (around_ok_all odd) a (proj1 (str_contains_In __BASE32 a) Ha)).
Qed.

Lemma distinct_chars_NoDup l : distinct_chars l = true -> NoDup l.
Proof.
  induction l as [|x l IH]; simpl; intros H; [constructor|].
  apply andb_prop in H as [Hx Hl]. constructor; [|auto].
  intros Hin. apply negb_true_iff in Hx.
  assert (Hex : existsb (Ascii.eqb x) l = true).
  { apply existsb_exists. exists x. split; [now apply list_elem_of_In|].
    apply Ascii.eqb_refl. }
  congruence.
Qed.

Lemma str_snoc_pair_inj : Inj eq eq (fun pa : string * ascii => str_snoc pa.1 pa.2).
Proof.
  intros [p a] [p' a'] H. simpl in H. apply str_snoc_inj in H as [-> ->].
  reflexivity.
Qed.

(** Codes whose last characters differ are different codes. *)
Lemma NoDup_snoc (pairs : list (string * ascii)) :
  NoDup (pairs.*2) -> NoDup ((fun pa => str_snoc pa.1 pa.2) <$> pairs).
Proof.
  intros H. apply (NoDup_fmap_2 _ (Inj0 := str_snoc_pair_inj)).
  eapply NoDup_fmap_1. exact H.
Qed.

Lemma around_chars_distinct odd a l :
  str_contains __BASE32 a = true -> around_chars odd a = Ok l -> NoDup l.
Proof.
  intros Ha E. apply (around_ok_holds odd) in Ha. revert Ha.
  unfold around_ok. rewrite E. apply distinct_chars_NoDup.
Qed.

Lemma around_chars_eq odd a an as_ ae aw ane anw ase asw :
  subst_char odd top a = Ok an -> subst_char odd bottom a = Ok as_ ->
  subst_char odd right a = Ok ae -> subst_char odd left a = Ok aw ->
  subst_char odd right an = Ok ane -> subst_char odd left an = Ok anw ->
  subst_char odd right as_ = Ok ase -> subst_char odd left as_ = Ok asw ->
  around_chars odd a = Ok [a; an; as_; ae; aw; ane; anw; ase; asw].
Proof.
  intros H1 H2 H3 H4 H5 H6 H7 H8. unfold around_chars.
  rewrite H1, H2, H3, H4. cbn [rbind]. rewrite H5, H6, H7, H8. reflexivity.
Qed.

(** X10.  Around a non-empty geohash code [neighbors] finds exactly eight
    cells: the set it returns has eight elements, all of them geohash
    codes of the length of the code, and the code itself is not one of
    them. *)
Theorem neighbors_eight_cells (gh : string) :
  valid_code gh = true -> (gh <> "") ->
  exists nb,
    neighbors gh = Ok nb
    /\ size nb = 8%nat
    /\ (gh ∉ nb)
    /\ forall h, h ∈ nb ->
         valid_code h = true /\ String.length h = String.length gh.
Proof.
  intros Hv Hne.
  destruct gh as [|c0 s0]; [congruence|]. clear Hne.
  destruct (str_snoc_destruct c0 s0) as (p & a & E). rewrite E in *. clear E c0 s0.
  set (odd := negb (is_odd p)).
  destruct (neighbor_shape p a top Hv) as (pn & an & Hn & Han & Hln & Hvn).
  destruct (neighbor_shape p a bottom Hv) as (ps & as_ & Hs & Has & Hls & Hvs).
  destruct (neighbor_shape p a right Hv) as (pe & ae & He & Hae & Hle & Hve).
  destruct (neighbor_shape p a left Hv) as (pw & aw & Hw & Haw & Hlw & Hvw).
  destruct (neighbor_shape pn an right Hvn) as (pne & ane & Hne & Hane & Hlne & Hvne).
  destruct (neighbor_shape pn an left Hvn) as (pnw & anw & Hnw & Hanw & Hlnw & Hvnw).
  destruct (neighbor_shape ps as_ right Hvs) as (pse & ase & Hse & Hase & Hlse & Hvse).
  destruct (neighbor_shape ps as_ left Hvs) as (psw & asw & Hsw & Hasw & Hlsw & Hvsw).
  rewrite (is_odd_length pn p Hln) in Hane, Hanw.
  rewrite (is_odd_length ps p Hls) in Hase, Hasw.
  fold odd in Han, Has, Hae, Haw, Hane, Hanw, Hase, Hasw.
  assert (Ha : str_contains __BASE32 a = true).
  { rewrite valid_code_snoc in Hv. now apply andb_prop in Hv as [_ Hv]. }
  pose proof (around_chars_distinct odd a _ Ha
                (around_chars_eq odd a an as_ ae aw ane anw ase asw
                   Han Has Hae Haw Hane Hanw Hase Hasw)) as Hok.
  pose proof (NoDup_snoc
                [(p, a); (pn, an); (ps, as_); (pe, ae); (pw, aw);
                 (pne, ane); (pnw, anw); (pse, ase); (psw, asw)] Hok) as Hnd.
  cbn [fmap list_fmap fst snd] in Hnd.
  apply NoDup_cons in Hnd as [Hout Hnd].
  exists (list_to_set [str_snoc pn an; str_snoc ps as_; str_snoc pe ae;
                       str_snoc pw aw; str_snoc pne ane; str_snoc pnw anw;
                       str_snoc pse ase; str_snoc psw asw]).
  split.
  { unfold neighbors. rewrite Hn, Hs, He, Hw. cbn [rbind].
    rewrite Hne, Hnw, Hse, Hsw. cbn [rbind]. f_equal.
    cbn [list_to_set]. set_solver. }
  split; [now rewrite size_list_to_set|].
  split; [now rewrite elem_of_list_to_set|].
  intros h Hh. apply elem_of_list_to_set in Hh.
  rewrite !str_length_snoc.
  repeat (apply elem_of_cons in Hh as [->|Hh];
          [split; [assumption|rewrite str_length_snoc; congruence]|]).
  inversion Hh.
Qed.

Lemma neighbors_eight_cells_witness :
  valid_code "xn76urx6" = true /\ ("xn76urx6" <> "")
  /\ exists nb,
       neighbors "xn76urx6" = Ok nb
       /\ size nb = 8%nat
       /\ ("xn76urx6" ∉ nb)
       /\ forall h, h ∈ nb ->
            valid_code h = true /\ String.length h = String.length "xn76urx6".
Proof.
  assert (Hv : valid_code "xn76urx6" = true) by (vm_compute; reflexivity).
  assert (Hne : ("xn76urx6" <> "")) by discriminate.
  split; [exact Hv|]. split; [exact Hne|].
  exact (neighbors_eight_cells "xn76urx6" Hv Hne).
Defined.

(** *** What [encode_geohash] returns, for all arguments *)

Lemma encode_body_code lat lon st st' :
  forallb (str_contains __BASE32) (geohash st) = true ->
  encode_body lat lon st = Ok st' ->
  forallb (str_contains __BASE32) (geohash st') = true.
Proof.
  unfold encode_body. intros Hc H.
  destruct (bisect lat lon st) as [st1|] eqn:Hb; [|discriminate].
  apply bisect_frame in Hb as (Hg & _). cbn [rbind] in H. rewrite <- Hg in Hc.
  unfold advance in H. destruct (bit st1 <? 4)%Z.
  - inversion H; subst; assumption.
  - destruct (str_getitem __BASE32 (ch st1)) as [c|] eqn:Hch; [|discriminate].
    cbn [rbind] in H. inversion H; subst. cbn [geohash].
    rewrite forallb_app, Hc. cbn [forallb].
    now rewrite (str_getitem_contains _ _ _ Hch).
Qed.

Lemma encode_loop_code lat lon precision st :
  enc_inv st ->
  forallb (str_contains __BASE32) (geohash st) = true ->
  exists code,
    encode_loop lat lon precision st = Ok code
    /\ valid_code code = true
    /\ Z.of_nat (String.length code)
       = Z.max (Z.of_nat (List.length (geohash st))) precision.
Proof.
  funelim (encode_loop lat lon precision st); intros Hinv Hc.
  - eexists; split; [reflexivity|]. split.
    + unfold valid_code. now rewrite list_ascii_of_string_of_list_ascii.
    + rewrite string_of_list_ascii_length. lia.
  - destruct (encode_body_ok lat lon st Hinv) as (st2 & Hst2 & Hinv2 & Hlen).
    rewrite Heq in Hst2. inversion Hst2; subst st2.
    destruct (H Hinv2 (encode_body_code _ _ _ _ Hc Heq)) as (code & -> & Hv & Hl).
    exists code. split; [reflexivity|]. split; [assumption|]. lia.
  - destruct (encode_body_ok lat lon st Hinv) as (st2 & Hst2 & _).
    congruence.
Qed.

(** X11.  [encode_geohash] never raises, for any coordinates, in range or
    not, and any precision; what it returns is a geohash code, a string
    over the base-32 alphabet, of [max(0, precision)] characters. *)
Theorem encode_gives_code (lat lon : R) (precision : Z) :
  exists code,
    encode_geohash lat lon precision = Ok code
    /\ valid_code code = true
    /\ Z.of_nat (String.length code) = Z.max 0 precision.
Proof.
  apply (encode_loop_code lat lon precision enc_init).
  - unfold enc_inv, enc_init; simpl; lia.
  - reflexivity.
Qed.






End GeohashFacts.

(** ** Distances and the staged filter *)

Module GeoFacts.

Import Geo.
Local Open Scope R_scope.

Lemma Rleb_true x y : Rleb x y = true <-> x <= y.
Proof. unfold Rleb. destruct (Rle_dec x y); split; intros; auto; discriminate. Qed.

Lemma Rleb_false x y : Rleb x y = false <-> y < x.
Proof.
  unfold Rleb. destruct (Rle_dec x y); split; intros; auto; try discriminate; lra.
Qed.

Lemma Rgtb_true x y : Rgtb x y = true <-> y < x.
Proof. unfold Rgtb. destruct (Rlt_dec y x); split; intros; auto; discriminate. Qed.

Lemma Rgtb_false x y : Rgtb x y = false <-> x <= y.
Proof.
  unfold Rgtb. destruct (Rlt_dec y x); split; intros; auto; try discriminate; lra.
Qed.

Lemma bbox_pass_true lat1 lon1 lat2 lon2 thresh_m :
  bbox_pass lat1 lon1 lat2 lon2 thresh_m = true <->
  Rabs (lat1 - lat2) <= dlat_max thresh_m
  /\ Rabs (lon1 - lon2) <= dlon_max lat1 thresh_m.
Proof. unfold bbox_pass. now rewrite andb_true_iff, !Rleb_true. Qed.

(** The cascade accepts exactly when the three stages do. *)
Lemma near_with_stages_true lat1 lon1 lat2 lon2 thresh_m relax_ratio :
  near_with_stages lat1 lon1 lat2 lon2 thresh_m relax_ratio = true <->
  bbox_pass lat1 lon1 lat2 lon2 thresh_m = true
  /\ equirectangular_m lat1 lon1 lat2 lon2 <= thresh_m * relax_ratio
  /\ haversine lat1 lon1 lat2 lon2 <= thresh_m.
Proof.
  unfold near_with_stages.
  destruct (bbox_pass lat1 lon1 lat2 lon2 thresh_m); simpl;
    [|split; [discriminate|intros [? _]; discriminate]].
  destruct (Rgtb _ _) eqn:E.
  - apply Rgtb_true in E. split; [discriminate|]. intros (_ & H & _). lra.
  - apply Rgtb_false in E. rewrite Rleb_true. tauto.
Qed.

(** *** The pieces of the distance formulas *)

Lemma R_EARTH_pos : 0 < R_EARTH.
Proof. unfold R_EARTH. lra. Qed.

Lemma PI_gt_2 : 2 < PI.
Proof. pose proof PI2_1. lra. Qed.

Lemma radians_0 : radians 0 = 0.
Proof. unfold radians. lra. Qed.

Lemma radians_minus x y : radians (x - y) = radians x - radians y.
Proof. unfold radians. lra. Qed.

Lemma radians_plus x y : radians (x + y) = radians x + radians y.
Proof. unfold radians. lra. Qed.

Lemma radians_half x : radians (x / 2) = radians x / 2.
Proof. unfold radians. lra. Qed.

Lemma atan2_0_1 : atan2 0 1 = 0.
Proof.
  unfold atan2. destruct (Rlt_dec 0 1) as [_|H]; [|lra].
  replace (0 / 1) with 0 by lra. apply atan_0.
Qed.

Lemma deg_per_m_small : 0 < deg_per_m < 1 / 1000.
Proof.
  unfold deg_per_m, R_EARTH. pose proof PI_gt_2 as HPI.
  assert (H : 180 / PI / 6371000 = 180 / (PI * 6371000)) by (field; lra).
  rewrite H. split.
  - apply Rdiv_lt_0_compat; nra.
  - apply (Rmult_lt_reg_r (PI * 6371000)); [nra|].
    unfold Rdiv. rewrite Rmult_assoc, Rinv_l; nra.
Qed.

(** *** At the pole *)

Lemma radians_90 : radians 90 = PI / 2.
Proof. unfold radians. lra. Qed.

(** All the pairs [(90, lon)] are the north pole. *)
Lemma hav_a_pole lon1 lon2 : hav_a 90 lon1 90 lon2 = 0.
Proof.
  unfold hav_a. rewrite radians_90, cos_PI2.
  replace (90 - 90) with 0 by lra. rewrite radians_0.
  replace (0 / 2) with 0 by lra. rewrite sin_0. ring.
Qed.

Lemma haversine_pole lon1 lon2 : haversine 90 lon1 90 lon2 = 0.
Proof.
  unfold haversine. rewrite hav_a_pole.
  replace (1 - 0) with 1 by lra.
  rewrite sqrt_0, sqrt_1, atan2_0_1. lra.
Qed.

(** There the guard [max(0.2, cos(lat))] caps the longitude bound at five
    times the latitude bound. *)
Lemma dlon_max_pole thresh_m : dlon_max 90 thresh_m = 5 * (thresh_m * deg_per_m).
Proof.
  unfold dlon_max, dlat_max. rewrite radians_90, cos_PI2.
  rewrite Rmax_left by lra. lra.
Qed.

Lemma bbox_pass_pole : bbox_pass 90 0 90 1 THRESH_M = false.
Proof.
  unfold bbox_pass. apply andb_false_iff. right. apply Rleb_false.
  rewrite dlon_max_pole. unfold THRESH_M.
  rewrite Rabs_left by lra.
  pose proof deg_per_m_small. lra.
Qed.

(** C3, as stated, fails: [(90, 0)] and [(90, 1)] are at distance 0 of
    each other, and the bounding box, with its high-latitude guard,
    rejects the pair. *)
Lemma cascade_drops_hit_at_pole :
  ~ (haversine 90 0 90 1 <= THRESH_M ->
     bbox_pass 90 0 90 1 THRESH_M = true
     /\ equirectangular_m 90 0 90 1 <= THRESH_M * RELAX_RATIO).
Proof.
  intros H. destruct H as [H _].
  - rewrite haversine_pole. unfold THRESH_M. lra.
  - rewrite bbox_pass_pole in H. discriminate.
Qed.

Example near_with_stages_pole :
  near_with_stages 90 0 90 1 THRESH_M RELAX_RATIO = false.
Proof. unfold near_with_stages. now rewrite bbox_pass_pole. Qed.

(** *** Across the antimeridian *)

(** Two points on the equator, on either side of the antimeridian. *)
Lemma hav_a_antimeridian : hav_a 0 180 0 (-180) = 0.
Proof.
  unfold hav_a, radians.
  replace ((0 - 0) * (PI / 180) / 2) with 0 by lra.
  replace ((-180 - 180) * (PI / 180) / 2) with (- PI) by lra.
  rewrite sin_0, sin_neg, sin_PI. lra.
Qed.

Lemma haversine_antimeridian : haversine 0 180 0 (-180) = 0.
Proof.
  unfold haversine. rewrite hav_a_antimeridian.
  replace (1 - 0) with 1 by lra.
  rewrite sqrt_0, sqrt_1, atan2_0_1. lra.
Qed.

Lemma dlon_max_equator thresh_m : dlon_max 0 thresh_m = thresh_m * deg_per_m.
Proof.
  unfold dlon_max, dlat_max. rewrite radians_0, cos_0.
  rewrite Rmax_right by lra. lra.
Qed.

(** [bbox_pass] compares the longitudes as they are, without wrapping
    them: the pair, at distance 0, is outside the box. *)
Example bbox_pass_antimeridian : bbox_pass 0 180 0 (-180) THRESH_M = false.
Proof.
  unfold bbox_pass. apply andb_false_iff. right. apply Rleb_false.
  rewrite dlon_max_equator. unfold THRESH_M.
  replace (180 - -180) with 360 by lra. rewrite Rabs_pos_eq by lra.
  pose proof deg_per_m_small. lra.
Qed.

(** *** The central angle *)

Lemma haversine_half_angle lat1 lon1 lat2 lon2 :
  haversine lat1 lon1 lat2 lon2
  = 2 * R_EARTH * half_angle (hav_a lat1 lon1 lat2 lon2).
Proof. reflexivity. Qed.

Lemma sin2_cos2_pow x : 1 - sin x ^ 2 = cos x ^ 2.
Proof. pose proof (sin2_cos2 x) as H. unfold Rsqr in H. lra. Qed.

Lemma half_angle_sin psi :
  0 <= psi <= PI / 2 -> half_angle (sin psi ^ 2) = psi.
Proof.
  intros [H0 H1]. pose proof PI_gt_2 as HPI.
  assert (Hs : 0 <= sin psi) by (apply sin_ge_0; lra).
  assert (Hc : 0 <= cos psi) by (apply cos_ge_0; lra).
  unfold half_angle.
  rewrite sin2_cos2_pow, !sqrt_pow2 by assumption.
  unfold atan2.
  destruct (Rlt_dec 0 (cos psi)) as [Hpos|Hnpos].
  - assert (Hlt : psi < PI / 2).
    { destruct (Req_dec psi (PI / 2)) as [E|E]; [|lra].
      rewrite E, cos_PI2 in Hpos. lra. }
    change (sin psi / cos psi) with (tan psi).
    apply atan_tan. lra.
  - assert (E : psi = PI / 2).
    { destruct (Rlt_dec psi (PI / 2)) as [Hlt|]; [|lra].
      exfalso. apply Hnpos. apply cos_gt_0; lra. }
    destruct (Rlt_dec (cos psi) 0) as [|_]; [lra|].
    rewrite E, sin_PI2.
    destruct (Rlt_dec 0 1) as [_|]; [reflexivity|lra].
Qed.

Lemma half_angle_le_PI2 a : half_angle a <= PI / 2.
Proof.
  unfold half_angle, atan2. pose proof PI_gt_2 as HPI.
  pose proof (sqrt_pos a). pose proof (sqrt_pos (1 - a)).
  destruct (Rlt_dec 0 (sqrt (1 - a))).
  - pose proof (atan_bound (sqrt a / sqrt (1 - a))). lra.
  - destruct (Rlt_dec (sqrt (1 - a)) 0); [lra|].
    destruct (Rlt_dec 0 (sqrt a)); [lra|].
    destruct (Rlt_dec (sqrt a) 0); lra.
Qed.

Lemma atan_le x y : x <= y -> atan x <= atan y.
Proof.
  intros [H| ->]; [|lra]. left. now apply atan_increasing.
Qed.

(** [half_angle] grows with its argument. *)
Lemma half_angle_mono a b : 0 <= a <= b -> half_angle a <= half_angle b.
Proof.
  intros [Ha Hab]. pose proof PI_gt_2 as HPI.
  destruct (Rlt_dec b 1) as [Hb|Hb].
  - unfold half_angle, atan2.
    assert (H1 : 0 < sqrt (1 - b)) by (apply sqrt_lt_R0; lra).
    assert (H2 : sqrt (1 - b) <= sqrt (1 - a)) by (apply sqrt_le_1_alt; lra).
    assert (H3 : sqrt a <= sqrt b) by (apply sqrt_le_1_alt; lra).
    pose proof (sqrt_pos a) as H4.
    destruct (Rlt_dec 0 (sqrt (1 - a))); [|lra].
    destruct (Rlt_dec 0 (sqrt (1 - b))); [|lra].
    apply atan_le.
    apply Rle_trans with (sqrt a / sqrt (1 - b)).
    + unfold Rdiv. apply Rmult_le_compat_l; [assumption|].
      apply Rinv_le_contravar; assumption.
    + unfold Rdiv. apply Rmult_le_compat_r; [|assumption].
      left. now apply Rinv_0_lt_compat.
  - assert (E : half_angle b = PI / 2).
    { unfold half_angle, atan2.
      rewrite (sqrt_neg_0 (1 - b)) by lra.
      destruct (Rlt_dec 0 0) as [|_]; [lra|].
      assert (0 < sqrt b) by (apply sqrt_lt_R0; lra).
      destruct (Rlt_dec 0 (sqrt b)); [reflexivity|lra]. }
    rewrite E. apply half_angle_le_PI2.
Qed.

(** *** The haversine term *)

Lemma radians_valid lat :
  valid_latitude lat -> - (PI / 2) <= radians lat <= PI / 2.
Proof.
  unfold valid_latitude, radians. pose proof PI_gt_2. intros [? ?]. split; nra.
Qed.

Lemma sin_half_sqr x : sin (x / 2) ^ 2 = (1 - cos x) / 2.
Proof.
  pose proof (cos_2a_sin (x / 2)) as H.
  replace (2 * (x / 2)) with x in H by lra. lra.
Qed.

(** In exact arithmetic the two square roots of [haversine] are taken of
    numbers between 0 and 1, whatever the coordinates. *)
Lemma hav_a_range lat1 lon1 lat2 lon2 :
  0 <= hav_a lat1 lon1 lat2 lon2 <= 1.
Proof.
  unfold hav_a. rewrite radians_minus, sin_half_sqr, cos_minus.
  set (p1 := radians lat1). set (p2 := radians lat2).
  set (w := sin (radians (lon2 - lon1) / 2) ^ 2).
  assert (Hw : 0 <= w <= 1).
  { subst w. pose proof (SIN_bound (radians (lon2 - lon1) / 2)). nra. }
  pose proof (COS_bound (p2 - p1)) as Hm. rewrite cos_minus in Hm.
  pose proof (COS_bound (p2 + p1)) as Hp. rewrite cos_plus in Hp.
  set (C := cos p1 * cos p2) in *.
  replace (cos p2 * cos p1) with C in * by (subst C; ring).
  set (S := sin p2 * sin p1) in *.
  replace ((1 - (C + S)) / 2 + C * w)
    with ((1 - w) * ((1 - (C + S)) / 2) + w * ((1 + (C - S)) / 2)) by field.
  split.
  - apply Rplus_le_le_0_compat; apply Rmult_le_pos; lra.
  - assert (H1 : (1 - w) * ((1 - (C + S)) / 2) <= (1 - w) * 1)
      by (apply Rmult_le_compat_l; lra).
    assert (H2 : w * ((1 + (C - S)) / 2) <= w * 1)
      by (apply Rmult_le_compat_l; lra).
    lra.
Qed.

Lemma sin_sqr_abs x : sin (Rabs x) ^ 2 = sin x ^ 2.
Proof.
  unfold Rabs. destruct (Rcase_abs x); [|reflexivity].
  rewrite sin_neg. ring.
Qed.

Lemma half_abs x : Rabs x / 2 = Rabs (x / 2).
Proof.
  unfold Rdiv. rewrite Rabs_mult, (Rabs_pos_eq (/ 2)) by lra. reflexivity.
Qed.

Lemma radians_abs x : Rabs (radians x) = Rabs x * (PI / 180).
Proof.
  unfold radians. pose proof PI_gt_2.
  rewrite Rabs_mult, (Rabs_pos_eq (PI / 180)) by lra. reflexivity.
Qed.

Lemma meridian_half_angle_range lat1 lat2 :
  valid_latitude lat1 -> valid_latitude lat2 ->
  0 <= Rabs (radians (lat2 - lat1)) / 2 <= PI / 2.
Proof.
  intros H1 H2. pose proof PI_gt_2 as HPI.
  pose proof (Rabs_pos (radians (lat2 - lat1))).
  split; [lra|].
  assert (Rabs (radians (lat2 - lat1)) <= PI); [|lra].
  apply radians_valid in H1, H2. rewrite radians_minus.
  apply Rabs_le. lra.
Qed.

(** The great-circle distance is at least the distance between the two
    parallels. *)
Lemma haversine_ge_meridian_arc lat1 lon1 lat2 lon2 :
  valid_latitude lat1 -> valid_latitude lat2 ->
  R_EARTH * Rabs (radians (lat2 - lat1)) <= haversine lat1 lon1 lat2 lon2.
Proof.
  intros H1 H2. pose proof R_EARTH_pos as HR. pose proof PI_gt_2 as HPI.
  set (psi := Rabs (radians (lat2 - lat1)) / 2).
  assert (Hpsi : 0 <= psi <= PI / 2)
    by (apply meridian_half_angle_range; assumption).
  assert (Hle : sin psi ^ 2 <= hav_a lat1 lon1 lat2 lon2).
  { subst psi. rewrite half_abs, sin_sqr_abs. unfold hav_a.
    assert (0 <= cos (radians lat1)) by (apply cos_ge_0; apply radians_valid; auto).
    assert (0 <= cos (radians lat2)) by (apply cos_ge_0; apply radians_valid; auto).
    assert (0 <= sin (radians (lon2 - lon1) / 2) ^ 2) by apply pow2_ge_0.
    assert (0 <= cos (radians lat1) * cos (radians lat2)
                 * sin (radians (lon2 - lon1) / 2) ^ 2).
    { apply Rmult_le_pos; [apply Rmult_le_pos|]; assumption. }
    lra. }
  assert (Hh : psi <= half_angle (hav_a lat1 lon1 lat2 lon2)).
  { rewrite <- (half_angle_sin psi Hpsi) at 1.
    apply half_angle_mono. split; [apply pow2_ge_0|exact Hle]. }
  rewrite haversine_half_angle. subst psi. nra.
Qed.

Lemma hav_a_same_meridian lat1 lon lat2 :
  hav_a lat1 lon lat2 lon = sin (Rabs (radians (lat2 - lat1)) / 2) ^ 2.
Proof.
  unfold hav_a. replace (lon - lon) with 0 by lra.
  rewrite radians_0. replace (0 / 2) with 0 by lra. rewrite sin_0.
  rewrite half_abs, sin_sqr_abs. ring.
Qed.

(** On a meridian the two distances are the length of the arc. *)
Lemma haversine_same_meridian lat1 lon lat2 :
  valid_latitude lat1 -> valid_latitude lat2 ->
  haversine lat1 lon lat2 lon = R_EARTH * Rabs (radians (lat2 - lat1)).
Proof.
  intros H1 H2. pose proof PI_gt_2 as HPI.
  rewrite haversine_half_angle, hav_a_same_meridian, half_angle_sin; [lra|].
  apply meridian_half_angle_range; assumption.
Qed.

Lemma equirectangular_same_meridian lat1 lon lat2 :
  equirectangular_m lat1 lon lat2 lon = R_EARTH * Rabs (radians (lat2 - lat1)).
Proof.
  unfold equirectangular_m. replace (lon - lon) with 0 by lra.
  rewrite radians_0. f_equal.
  rewrite <- sqrt_Rsqr_abs. f_equal. unfold Rsqr. ring.
Qed.

Lemma dlat_test lat1 lat2 thresh_m :
  R_EARTH * Rabs (radians (lat2 - lat1)) <= thresh_m ->
  Rabs (lat1 - lat2) <= dlat_max thresh_m.
Proof.
  intros H. pose proof R_EARTH_pos as HR. pose proof PI_gt_2 as HPI.
  rewrite radians_abs, (Rabs_minus_sym lat2 lat1) in H.
  unfold dlat_max, deg_per_m.
  set (x := Rabs (lat1 - lat2)) in *.
  apply (Rmult_le_reg_r (PI / 180 * R_EARTH)); [nra|].
  replace (thresh_m * (180 / PI / R_EARTH) * (PI / 180 * R_EARTH))
    with thresh_m by (field; lra).
  lra.
Qed.

Lemma dlon_max_nonneg lat1 thresh_m : 0 <= thresh_m -> 0 <= dlon_max lat1 thresh_m.
Proof.
  intros H. unfold dlon_max, dlat_max.
  pose proof deg_per_m_small as [Hd _].
  pose proof (Rmax_l (2 / 10) (cos (radians lat1))).
  apply Rmult_le_pos; [nra|]. left. apply Rinv_0_lt_compat. lra.
Qed.

Lemma haversine_same_point lat lon :
  valid_latitude lat -> haversine lat lon lat lon = 0.
Proof.
  intros H. rewrite haversine_same_meridian by assumption.
  replace (lat - lat) with 0 by lra. rewrite radians_0, Rabs_R0. lra.
Qed.

(** Two agents at the same place pass the three stages. *)
Lemma near_same_point lat lon thresh_m relax_ratio :
  valid_latitude lat -> 0 <= thresh_m -> 1 <= relax_ratio ->
  near_with_stages lat lon lat lon thresh_m relax_ratio = true.
Proof.
  intros Hv Ht Hr. apply near_with_stages_true.
  rewrite haversine_same_point by assumption.
  rewrite equirectangular_same_meridian.
  replace (lat - lat) with 0 by lra. rewrite radians_0, Rabs_R0.
  split; [|split; [nra|lra]].
  apply bbox_pass_true. replace (lat - lat) with 0 by lra.
  replace (lon - lon) with 0 by lra. rewrite Rabs_R0.
  split; [|now apply dlon_max_nonneg].
  unfold dlat_max. pose proof deg_per_m_small. nra.
Qed.

(** C3, as the program has it.  For valid latitudes, a pair within the
    threshold is never rejected by the latitude test of the bounding
    box; and when the two points are on the same meridian, with a relax
    ratio above 1, neither the bounding box nor the planar stage rejects
    it, so the cascade accepts it.  (Nothing is promised for the
    longitude test, nor for the planar stage, over different
    longitudes.) *)
Theorem cascade_keeps_hits_on_meridian lat1 lon1 lat2 lon2 thresh_m relax_ratio :
  valid_latitude lat1 -> valid_latitude lat2 ->
  haversine lat1 lon1 lat2 lon2 <= thresh_m ->
  Rabs (lat1 - lat2) <= dlat_max thresh_m
  /\ (lon1 = lon2 -> 1 < relax_ratio ->
      bbox_pass lat1 lon1 lat2 lon2 thresh_m = true
      /\ equirectangular_m lat1 lon1 lat2 lon2 <= thresh_m * relax_ratio
      /\ near_with_stages lat1 lon1 lat2 lon2 thresh_m relax_ratio = true).
Proof.
  intros H1 H2 Hd.
  pose proof (haversine_ge_meridian_arc lat1 lon1 lat2 lon2 H1 H2) as Harc.
  assert (Hlat : Rabs (lat1 - lat2) <= dlat_max thresh_m)
    by (apply dlat_test; lra).
  split; [exact Hlat|]. intros <- Hrelax.
  pose proof R_EARTH_pos as HR.
  pose proof (Rabs_pos (radians (lat2 - lat1))) as Habs.
  assert (Hthr : 0 <= thresh_m) by nra.
  assert (Hbox : bbox_pass lat1 lon1 lat2 lon1 thresh_m = true).
  { apply bbox_pass_true. split; [exact Hlat|].
    replace (lon1 - lon1) with 0 by lra. rewrite Rabs_R0.
    now apply dlon_max_nonneg. }
  assert (Heq : equirectangular_m lat1 lon1 lat2 lon1 <= thresh_m * relax_ratio).
  { rewrite equirectangular_same_meridian.
    rewrite haversine_same_meridian in Hd by assumption. nra. }
  split; [exact Hbox|]. split; [exact Heq|].
  apply near_with_stages_true. auto.
Qed.

Lemma cascade_keeps_hits_on_meridian_witness :
  valid_latitude 35.681236
  /\ haversine 35.681236 139.767125 35.681236 139.767125 <= THRESH_M
  /\ Rabs (35.681236 - 35.681236) <= dlat_max THRESH_M
  /\ (139.767125 = 139.767125 -> 1 < RELAX_RATIO ->
      bbox_pass 35.681236 139.767125 35.681236 139.767125 THRESH_M = true
      /\ equirectangular_m 35.681236 139.767125 35.681236 139.767125
         <= THRESH_M * RELAX_RATIO
      /\ near_with_stages 35.681236 139.767125 35.681236 139.767125
           THRESH_M RELAX_RATIO = true).
Proof.
  assert (Hv : valid_latitude 35.681236) by (unfold valid_latitude; lra).
  assert (Hd : haversine 35.681236 139.767125 35.681236 139.767125 <= THRESH_M).
  { rewrite (haversine_same_point _ _ Hv). unfold THRESH_M. lra. }
  split; [exact Hv|]. split; [exact Hd|].
  exact (cascade_keeps_hits_on_meridian 35.681236 139.767125 35.681236 139.767125
           THRESH_M RELAX_RATIO Hv Hv Hd).
Defined.

(** *** Further properties of the distances *)

Lemma hav_a_sym lat1 lon1 lat2 lon2 :
  hav_a lat2 lon2 lat1 lon1 = hav_a lat1 lon1 lat2 lon2.
Proof.
  unfold hav_a.
  replace (radians (lat1 - lat2) / 2) with (- (radians (lat2 - lat1) / 2))
    by (unfold radians; lra).
  replace (radians (lon1 - lon2) / 2) with (- (radians (lon2 - lon1) / 2))
    by (unfold radians; lra).
  rewrite !sin_neg. ring.
Qed.

Lemma haversine_sym lat1 lon1 lat2 lon2 :
  haversine lat2 lon2 lat1 lon1 = haversine lat1 lon1 lat2 lon2.
Proof. unfold haversine. now rewrite hav_a_sym. Qed.

(** X1.  The exact distance is symmetric: from the second point to the
    first it is what it is from the first to the second. *)
Theorem haversine_symmetric lat1 lon1 lat2 lon2 :
  haversine lat2 lon2 lat1 lon1 = haversine lat1 lon1 lat2 lon2.
Proof. apply haversine_sym. Qed.

Lemma half_angle_nonneg a : 0 <= half_angle a.
Proof.
  unfold half_angle, atan2. pose proof PI_gt_2 as HPI.
  pose proof (sqrt_pos a) as Ha. pose proof (sqrt_pos (1 - a)) as Hb.
  destruct (Rlt_dec 0 (sqrt (1 - a))) as [Hpos|].
  - rewrite <- atan_0. apply atan_le.
    apply Rmult_le_pos; [assumption|]. left. now apply Rinv_0_lt_compat.
  - destruct (Rlt_dec (sqrt (1 - a)) 0); [lra|].
    destruct (Rlt_dec 0 (sqrt a)); [lra|].
    destruct (Rlt_dec (sqrt a) 0); lra.
Qed.

(** X2.  Whatever the four coordinates, the exact distance lies between 0
    and half the circumference of the sphere, [PI * R_EARTH]. *)
Theorem haversine_range lat1 lon1 lat2 lon2 :
  0 <= haversine lat1 lon1 lat2 lon2 <= PI * R_EARTH.
Proof.
  rewrite haversine_half_angle. pose proof R_EARTH_pos as HR.
  pose proof (half_angle_nonneg (hav_a lat1 lon1 lat2 lon2)) as H0.
  pose proof (half_angle_le_PI2 (hav_a lat1 lon1 lat2 lon2)) as H1.
  split; nra.
Qed.

(** X3.  In exact arithmetic [haversine] never takes the square root of a
    negative number: its term [a] and [1 - a] are both between 0 and 1,
    for all coordinates, in range or not. *)
Theorem haversine_sqrt_defined lat1 lon1 lat2 lon2 :
  0 <= hav_a lat1 lon1 lat2 lon2 <= 1
  /\ 0 <= 1 - hav_a lat1 lon1 lat2 lon2 <= 1.
Proof. pose proof (hav_a_range lat1 lon1 lat2 lon2). lra. Qed.

(** X4.  Along a meridian the exact distance and the planar one are both
    the length of the arc, [R_EARTH] times the difference of the latitudes
    in radians. *)
Theorem meridian_distances lat1 lon lat2 :
  valid_latitude lat1 -> valid_latitude lat2 ->
  haversine lat1 lon lat2 lon = R_EARTH * (Rabs (lat2 - lat1) * (PI / 180))
  /\ equirectangular_m lat1 lon lat2 lon
     = R_EARTH * (Rabs (lat2 - lat1) * (PI / 180)).
Proof.
  intros H1 H2.
  rewrite haversine_same_meridian, equirectangular_same_meridian by assumption.
  now rewrite radians_abs.
Qed.

Lemma meridian_distances_witness :
  valid_latitude 35 /\ valid_latitude 36
  /\ haversine 35 139 36 139 = R_EARTH * (Rabs (36 - 35) * (PI / 180))
  /\ equirectangular_m 35 139 36 139 = R_EARTH * (Rabs (36 - 35) * (PI / 180)).
Proof.
  assert (H1 : valid_latitude 35) by (unfold valid_latitude; lra).
  assert (H2 : valid_latitude 36) by (unfold valid_latitude; lra).
  split; [exact H1|]. split; [exact H2|].
  exact (meridian_distances 35 139 36 H1 H2).
Defined.

Lemma equirectangular_sym lat1 lon1 lat2 lon2 :
  equirectangular_m lat2 lon2 lat1 lon1 = equirectangular_m lat1 lon1 lat2 lon2.
Proof.
  unfold equirectangular_m. f_equal. f_equal.
  replace ((lat2 + lat1) / 2) with ((lat1 + lat2) / 2) by lra.
  unfold radians. ring.
Qed.

Lemma haversine_refl lat lon : haversine lat lon lat lon = 0.
Proof.
  unfold haversine, hav_a.
  replace (lat - lat) with 0 by lra. replace (lon - lon) with 0 by lra.
  rewrite radians_0. replace (0 / 2) with 0 by lra. rewrite sin_0.
  replace (0 ^ 2 + cos (radians lat) * cos (radians lat) * 0 ^ 2) with 0 by ring.
  replace (1 - 0) with 1 by lra.
  rewrite sqrt_0, sqrt_1, atan2_0_1. lra.
Qed.

Lemma equirectangular_refl lat lon : equirectangular_m lat lon lat lon = 0.
Proof.
  unfold equirectangular_m.
  replace (lat - lat) with 0 by lra. replace (lon - lon) with 0 by lra.
  rewrite radians_0.
  replace (0 * cos (radians ((lat + lat) / 2)) *
           (0 * cos (radians ((lat + lat) / 2))) + 0 * 0) with 0 by ring.
  rewrite sqrt_0. lra.
Qed.

Lemma Rmax_guard_pos lat1 : 0 < Rmax (2 / 10) (cos (radians lat1)).
Proof. pose proof (Rmax_l (2 / 10) (cos (radians lat1))). lra. Qed.

(** Two points at the same coordinates pass the three stages, for every
    threshold that is not negative. *)
Lemma near_refl lat lon thresh_m relax_ratio :
  0 <= thresh_m -> 0 <= relax_ratio ->
  near_with_stages lat lon lat lon thresh_m relax_ratio = true.
Proof.
  intros Ht Hr. apply near_with_stages_true.
  rewrite haversine_refl, equirectangular_refl.
  split; [|split; [nra|lra]].
  apply bbox_pass_true. replace (lat - lat) with 0 by lra.
  replace (lon - lon) with 0 by lra. rewrite Rabs_R0.
  split; [|now apply dlon_max_nonneg].
  unfold dlat_max. pose proof deg_per_m_small. nra.
Qed.

Lemma dlat_max_mono t1 t2 : t1 <= t2 -> dlat_max t1 <= dlat_max t2.
Proof. intros H. unfold dlat_max. pose proof deg_per_m_small. nra. Qed.

Lemma dlon_max_mono lat1 t1 t2 : t1 <= t2 -> dlon_max lat1 t1 <= dlon_max lat1 t2.
Proof.
  intros H. unfold dlon_max, Rdiv. apply Rmult_le_compat_r.
  - left. apply Rinv_0_lt_compat, Rmax_guard_pos.
  - now apply dlat_max_mono.
Qed.

Lemma near_mono lat1 lon1 lat2 lon2 t1 t2 relax_ratio :
  t1 <= t2 -> 0 <= relax_ratio ->
  near_with_stages lat1 lon1 lat2 lon2 t1 relax_ratio = true ->
  near_with_stages lat1 lon1 lat2 lon2 t2 relax_ratio = true.
Proof.
  intros Ht Hr H. apply near_with_stages_true in H as (Hb & He & Hh).
  apply bbox_pass_true in Hb as [Hb1 Hb2].
  apply near_with_stages_true. split; [|split; [nra|lra]].
  apply bbox_pass_true. split.
  - eapply Rle_trans; [exact Hb1|]. now apply dlat_max_mono.
  - eapply Rle_trans; [exact Hb2|]. now apply dlon_max_mono.
Qed.

(** X5.  The cascade is monotone in the threshold: a pair that it accepts
    for a threshold is accepted for every larger one (the relax ratio not
    being negative). *)
Theorem near_with_stages_monotone lat1 lon1 lat2 lon2 t1 t2 relax_ratio :
  t1 <= t2 -> 0 <= relax_ratio ->
  near_with_stages lat1 lon1 lat2 lon2 t1 relax_ratio = true ->
  near_with_stages lat1 lon1 lat2 lon2 t2 relax_ratio = true.
Proof. apply near_mono. Qed.

Lemma near_with_stages_monotone_witness :
  10 <= 20 /\ 0 <= RELAX_RATIO
  /\ near_with_stages 35 139 35 139 10 RELAX_RATIO = true
  /\ near_with_stages 35 139 35 139 20 RELAX_RATIO = true.
Proof.
  assert (H1 : 10 <= 20) by lra.
  assert (H2 : 0 <= RELAX_RATIO) by (unfold RELAX_RATIO; lra).
  assert (H3 : near_with_stages 35 139 35 139 10 RELAX_RATIO = true)
    by (apply near_refl; lra).
  split; [exact H1|]. split; [exact H2|]. split; [exact H3|].
  exact (near_with_stages_monotone 35 139 35 139 10 20 RELAX_RATIO H1 H2 H3).
Defined.

Lemma near_negative lat1 lon1 lat2 lon2 thresh_m relax_ratio :
  thresh_m < 0 ->
  near_with_stages lat1 lon1 lat2 lon2 thresh_m relax_ratio = false.
Proof.
  intros Ht. unfold near_with_stages.
  assert (Hb : bbox_pass lat1 lon1 lat2 lon2 thresh_m = false).
  { unfold bbox_pass. apply andb_false_iff. left. apply Rleb_false.
    unfold dlat_max. pose proof deg_per_m_small.
    pose proof (Rabs_pos (lat1 - lat2)). nra. }
  now rewrite Hb.
Qed.

End GeoFacts.

(** ** The engine *)

Module EngineFacts.

Import Geohash Geo Engine PyFacts GeohashFacts GeoFacts.

(** *** Computations that only read the state *)

Lemma reads_ret {A} (a : A) : reads (ret a).
Proof. intros s. exists a. reflexivity. Qed.

Lemma reads_bind {A B} (m : M A) (k : A -> M B) :
  reads m -> (forall a, reads (k a)) -> reads (bind m k).
Proof.
  intros Hm Hk s. destruct (Hm s) as (a & Ha). destruct (Hk a s) as (b & Hb).
  exists b. unfold bind. rewrite Ha. exact Hb.
Qed.

Lemma reads_lift {A} (r : res A) : (exists a, r = Ok a) -> reads (lift r).
Proof. intros (a & ->) s. exists a. reflexivity. Qed.

Lemma reads_users_get uid : reads (users_get uid).
Proof. intros s. eexists. reflexivity. Qed.

Lemma reads_index_get k : reads (index_get k).
Proof. intros s. eexists. reflexivity. Qed.

Lemma reads_for_each {A B} (l : list A) (body : B -> A -> M B) :
  (forall acc x, reads (body acc x)) ->
  forall acc, reads (for_each l acc body).
Proof.
  intros Hbody. induction l as [|x l IH]; intros acc; simpl.
  - apply reads_ret.
  - apply reads_bind; [apply Hbody|]. intros acc'. apply IH.
Qed.

Create HintDb reads.
#[local] Hint Resolve reads_ret reads_bind reads_lift reads_users_get
  reads_index_get reads_for_each : reads.

Lemma reads_collect candidates h : reads (collect candidates h).
Proof. unfold collect. auto with reads. Qed.

Lemma reads_examine uid lat1 lon1 threshold time_window now hits vid :
  reads (examine uid lat1 lon1 threshold time_window now hits vid).
Proof.
  unfold examine. destruct (String.eqb vid uid); [apply reads_ret|].
  apply reads_bind; [apply reads_users_get|]. intros [v|]; [|apply reads_ret].
  destruct (latest_location v) as [[lat2 lon2]|]; [|apply reads_ret].
  destruct (Rgtb _ _); [apply reads_ret|].
  destruct (near_with_stages _ _ _ _ _ _); apply reads_ret.
Qed.

Lemma own_bucket_total u lat1 lon1 : exists gh, own_bucket u lat1 lon1 = Ok gh.
Proof.
  unfold own_bucket.
  destruct (encode_geohash_length lat1 lon1 GEO_PREC) as (code & Hc & _);
    [unfold GEO_PREC; lia|].
  destruct (last_gh u) as [g|]; [destruct (String.eqb g "")|]; eauto.
Qed.

Lemma reads_check_proximity_geohash uid threshold time_window clock :
  reads (check_proximity_geohash uid threshold time_window clock).
Proof.
  unfold check_proximity_geohash.
  apply reads_bind; [apply reads_users_get|]. intros [u|]; [|apply reads_ret].
  destruct (latest_location u) as [[lat1 lon1]|]; [|apply reads_ret].
  apply reads_bind; [apply reads_lift, own_bucket_total|]. intros gh.
  apply reads_bind; [apply reads_lift, neighbors_total|]. intros nb.
  apply reads_bind.
  - apply reads_for_each. intros; apply reads_collect.
  - intros candidates. apply reads_for_each. intros; apply reads_examine.
Qed.

(** C10.  The proximity query is read-only: from every state of the
    [users] dictionary and of [geo_index] it returns, without raising,
    in that same state; in particular looking a bucket up with
    [geo_index.get] binds no new (empty) set in the index. *)
Theorem check_proximity_read_only uid threshold time_window clock (s : State) :
  exists hits,
    check_proximity_geohash uid threshold time_window clock s = Ok (hits, s).
Proof. apply reads_check_proximity_geohash. Qed.

(** By contrast [geo_index[k]], which [upsert_user] uses, does bind a
    missing key. *)
Example index_getitem_binds :
  index_getitem "xn76urwe" initial_state
  = Ok (∅, {| users := ∅; geo_index := {["xn76urwe" := ∅]} |}).
Proof. reflexivity. Qed.

(** *** What the query returns *)

Lemma examine_run s uid lat1 lon1 threshold time_window now hits vid :
  examine uid lat1 lon1 threshold time_window now hits vid s
  = Ok (hits ++ hit_of s uid lat1 lon1 threshold time_window now vid, s).
Proof.
  unfold examine, hit_of, accepts.
  destruct (String.eqb vid uid); [unfold ret; now rewrite app_nil_r|].
  unfold bind, users_get.
  destruct (users s !! vid) as [v|]; [|unfold ret; now rewrite app_nil_r].
  destruct (latest_location v) as [[lat2 lon2]|];
    [|unfold ret; now rewrite app_nil_r].
  destruct (Rgtb _ _); [unfold ret; now rewrite app_nil_r|].
  destruct (near_with_stages _ _ _ _ _ _); unfold ret; [reflexivity|].
  now rewrite app_nil_r.
Qed.

Lemma for_each_examine_run s uid lat1 lon1 threshold time_window now l :
  forall hits,
    for_each l hits (examine uid lat1 lon1 threshold time_window now) s
    = Ok (hits ++ flat_map (hit_of s uid lat1 lon1 threshold time_window now) l, s).
Proof.
  induction l as [|vid l IH]; intros hits; simpl.
  - unfold ret. now rewrite app_nil_r.
  - unfold bind. rewrite examine_run, IH, <- app_assoc. reflexivity.
Qed.

Lemma for_each_collect_run s l :
  forall acc,
    for_each l acc collect s
    = Ok (acc ∪ ⋃ (index_set s <$> l), s).
Proof.
  induction l as [|h l IH]; intros acc; simpl.
  - unfold ret. f_equal. f_equal. set_solver.
  - unfold bind at 1. unfold collect at 1. unfold bind, index_get, ret.
    rewrite IH. f_equal. f_equal. unfold index_set. set_solver.
Qed.

Lemma elem_of_hits s uid lat1 lon1 threshold time_window now l vid d :
  (vid, d) ∈ flat_map (hit_of s uid lat1 lon1 threshold time_window now) l
  <-> vid ∈ l /\ accepts s uid lat1 lon1 threshold time_window now vid = Some d.
Proof.
  rewrite list_elem_of_In, in_flat_map. split.
  - intros (x & Hx & Hin). unfold hit_of in Hin.
    destruct (accepts s uid lat1 lon1 threshold time_window now x) eqn:E;
      simpl in Hin; [|tauto].
    destruct Hin as [Hin|[]]. inversion Hin; subst.
    split; [now apply list_elem_of_In|assumption].
  - intros (Hin & Hacc). exists vid. split; [now apply list_elem_of_In|].
    unfold hit_of. rewrite Hacc. now left.
Qed.

(** The hits of a query, for an agent with a recorded location: the
    candidates found in the agent's bucket and in the neighbouring ones
    that [examine] accepts. *)
Lemma check_proximity_hits s uid threshold time_window clock u lat1 lon1 :
  users s !! uid = Some u ->
  latest_location u = Some (lat1, lon1) ->
  exists gh nb hits,
    own_bucket u lat1 lon1 = Ok gh
    /\ neighbors gh = Ok nb
    /\ check_proximity_geohash uid threshold time_window clock s = Ok (hits, s)
    /\ forall vid d,
         (vid, d) ∈ hits <->
         (exists h, h ∈ ({[gh]} ∪ nb : gset string) /\ vid ∈ index_set s h)
         /\ accepts s uid lat1 lon1 threshold time_window clock vid = Some d.
Proof.
  intros Hu Hloc.
  destruct (own_bucket_total u lat1 lon1) as (gh & Hgh).
  destruct (neighbors_total gh) as (nb & Hnb).
  exists gh, nb. eexists. split; [exact Hgh|]. split; [exact Hnb|].
  split.
  - unfold check_proximity_geohash. unfold bind at 1. unfold users_get.
    rewrite Hu, Hloc. unfold bind at 1. rewrite Hgh. cbn [lift].
    unfold bind at 1. rewrite Hnb. cbn [lift].
    unfold bind at 1. rewrite for_each_collect_run.
    rewrite for_each_examine_run. reflexivity.
  - intros vid d. cbn [app]. rewrite elem_of_hits.
    rewrite elem_of_elements, elem_of_union, elem_of_union_list.
    split; intros [Hc Ha]; (split; [|exact Ha]).
    + destruct Hc as [Hc|(X & HX & Hin)]; [set_solver|].
      apply list_elem_of_fmap in HX as (h & -> & Hh).
      apply elem_of_elements in Hh. eauto.
    + right. destruct Hc as (h & Hh & Hin). exists (index_set s h).
      split; [|exact Hin]. apply list_elem_of_fmap. exists h.
      split; [reflexivity|]. now apply elem_of_elements.
Qed.

Lemma check_proximity_no_location s uid threshold time_window clock :
  (forall u, users s !! uid = Some u -> latest_location u = None) ->
  check_proximity_geohash uid threshold time_window clock s = Ok ([], s).
Proof.
  intros H. unfold check_proximity_geohash, bind, users_get.
  destruct (users s !! uid) as [u|]; [|reflexivity].
  rewrite (H u eq_refl). reflexivity.
Qed.

Lemma accepts_Some s uid lat1 lon1 threshold time_window now vid d :
  accepts s uid lat1 lon1 threshold time_window now vid = Some d <->
  vid <> uid
  /\ exists v lat2 lon2,
       users s !! vid = Some v
       /\ latest_location v = Some (lat2, lon2)
       /\ (now - last_ts v <= time_window)%R
       /\ near_with_stages lat1 lon1 lat2 lon2 threshold RELAX_RATIO = true
       /\ d = haversine lat1 lon1 lat2 lon2.
Proof.
  unfold accepts. destruct (String.eqb_spec vid uid) as [->|Hne].
  { split; [discriminate|]. intros [H _]. now contradiction H. }
  destruct (users s !! vid) as [v|];
    [|split; [discriminate|intros (_ & v & ? & ? & H & _); discriminate]].
  destruct (latest_location v) as [[lat2 lon2]|] eqn:Hloc;
    [|split; [discriminate|intros (_ & v' & ? & ? & H & H' & _)];
      inversion H; subst; congruence].
  destruct (Rgtb _ _) eqn:Hstale.
  { apply Rgtb_true in Hstale. split; [discriminate|].
    intros (_ & v' & ? & ? & H & _ & H' & _). inversion H; subst. lra. }
  apply Rgtb_false in Hstale.
  destruct (near_with_stages _ _ _ _ _ _) eqn:Hnear.
  - split.
    + intros H; inversion H; subst. split; [assumption|].
      exists v, lat2, lon2. auto.
    + intros (_ & v' & lat2' & lon2' & H & Hl & _ & _ & ->).
      inversion H; subst. rewrite Hloc in Hl. inversion Hl; subst. reflexivity.
  - split; [discriminate|].
    intros (_ & v' & lat2' & lon2' & H & Hl & _ & Hn & _).
    inversion H; subst. rewrite Hloc in Hl. inversion Hl; subst. congruence.
Qed.

(** C4.  Every hit of a query carries the exact haversine distance
    between the latest sample of the querying agent and the latest
    sample of the candidate, and that distance is at most the
    threshold. *)
Theorem hits_exact_distance uid threshold time_window clock (s : State) :
  exists hits,
    check_proximity_geohash uid threshold time_window clock s = Ok (hits, s)
    /\ forall vid d,
         (vid, d) ∈ hits ->
         exists u v lat1 lon1 lat2 lon2,
           users s !! uid = Some u
           /\ latest_location u = Some (lat1, lon1)
           /\ users s !! vid = Some v
           /\ latest_location v = Some (lat2, lon2)
           /\ d = haversine lat1 lon1 lat2 lon2
           /\ (d <= threshold)%R.
Proof.
  destruct (users s !! uid) as [u|] eqn:Hu.
  2:{ exists []. split.
      - apply check_proximity_no_location. intros u H. congruence.
      - intros vid d H. inversion H. }
  destruct (latest_location u) as [[lat1 lon1]|] eqn:Hloc.
  2:{ exists []. split.
      - apply check_proximity_no_location. intros u' H. congruence.
      - intros vid d H. inversion H. }
  destruct (check_proximity_hits s uid threshold time_window clock u lat1 lon1
              Hu Hloc) as (gh & nb & hits & _ & _ & Hrun & Hhits).
  exists hits. split; [exact Hrun|]. intros vid d Hin.
  apply Hhits in Hin as [_ Hacc].
  apply accepts_Some in Hacc as (_ & v & lat2 & lon2 & Hv & Hl & _ & Hnear & ->).
  apply near_with_stages_true in Hnear as (_ & _ & Hd).
  exists u, v, lat1, lon1, lat2, lon2. repeat split; assumption || reflexivity.
Qed.

(** C5.  A query for an identifier that is unknown, or whose record has
    no location, returns the empty list and does not raise. *)
Theorem unknown_agent_no_hits uid threshold time_window clock (s : State) :
  users s !! uid = None
  \/ (exists u, users s !! uid = Some u /\ latest_location u = None) ->
  check_proximity_geohash uid threshold time_window clock s = Ok ([], s).
Proof.
  intros H. apply check_proximity_no_location. intros u Hu.
  destruct H as [H|(u' & Hu' & Hloc)]; congruence.
Qed.

Lemma unknown_agent_no_hits_witness :
  users initial_state !! "ghost" = None
  /\ check_proximity_geohash "ghost" THRESH_M TIME_WINDOW 0%R initial_state
     = Ok ([], initial_state).
Proof.
  split; [reflexivity|].
  apply (unknown_agent_no_hits "ghost" THRESH_M TIME_WINDOW 0%R initial_state).
  left. reflexivity.
Defined.

(** C6.  Self-exclusion: the result of a query never contains the
    querying agent. *)
Theorem self_exclusion uid threshold time_window clock (s : State) :
  exists hits,
    check_proximity_geohash uid threshold time_window clock s = Ok (hits, s)
    /\ forall d, (uid, d) ∉ hits.
Proof.
  destruct (users s !! uid) as [u|] eqn:Hu.
  2:{ exists []. split.
      - apply check_proximity_no_location. intros u H. congruence.
      - intros d H. inversion H. }
  destruct (latest_location u) as [[lat1 lon1]|] eqn:Hloc.
  2:{ exists []. split.
      - apply check_proximity_no_location. intros u' H. congruence.
      - intros d H. inversion H. }
  destruct (check_proximity_hits s uid threshold time_window clock u lat1 lon1
              Hu Hloc) as (gh & nb & hits & _ & _ & Hrun & Hhits).
  exists hits. split; [exact Hrun|]. intros d Hin.
  apply Hhits in Hin as [_ Hacc].
  apply accepts_Some in Hacc as (Hne & _). now apply Hne.
Qed.

(** C7.  Recency filter: a candidate whose last update is older than the
    time window ([now - last_ts > time_window]) is in no hit, whatever
    its distance to the querying agent. *)
Theorem recency_filter uid threshold time_window clock (s : State) vid v :
  users s !! vid = Some v ->
  (clock - last_ts v > time_window)%R ->
  exists hits,
    check_proximity_geohash uid threshold time_window clock s = Ok (hits, s)
    /\ forall d, (vid, d) ∉ hits.
Proof.
  intros Hv Hstale.
  destruct (users s !! uid) as [u|] eqn:Hu.
  2:{ exists []. split.
      - apply check_proximity_no_location. intros u H. congruence.
      - intros d H. inversion H. }
  destruct (latest_location u) as [[lat1 lon1]|] eqn:Hloc.
  2:{ exists []. split.
      - apply check_proximity_no_location. intros u' H. congruence.
      - intros d H. inversion H. }
  destruct (check_proximity_hits s uid threshold time_window clock u lat1 lon1
              Hu Hloc) as (gh & nb & hits & _ & _ & Hrun & Hhits).
  exists hits. split; [exact Hrun|]. intros d Hin.
  apply Hhits in Hin as [_ Hacc].
  apply accepts_Some in Hacc as (_ & v' & lat2 & lon2 & Hv' & _ & Hfresh & _).
  rewrite Hv in Hv'. inversion Hv'; subst. lra.
Qed.

(** *** [upsert_user] *)

Lemma index_getitem_store_run k (f : gset string -> gset string) s :
  (exec ids <- index_getitem k; index_store k (f ids)) s
  = Ok (tt, {| users := users s;
               geo_index := <[k := f (index_set s k)]> (geo_index s) |}).
Proof.
  unfold bind, index_getitem, index_store, index_set.
  destruct (geo_index s !! k) as [ids|]; simpl; [reflexivity|].
  now rewrite insert_insert_eq.
Qed.

Lemma index_set_insert s us k ids c :
  index_set {| users := us; geo_index := <[k := ids]> (geo_index s) |} c
  = if decide (k = c) then ids else index_set s c.
Proof.
  unfold index_set; simpl. rewrite lookup_insert.
  destruct (decide (k = c)); reflexivity.
Qed.

Lemma latest_location_append (l : list (R * R)) (p : R * R) :
  List.last (List.map Some (deque_append 20 l p)) None = Some p.
Proof.
  unfold deque_append.
  assert (H : forall l' : list (R * R),
             List.last (List.map Some (l' ++ [p])) None = Some p).
  { intros l'. rewrite List.map_app. simpl. apply List.last_last. }
  destruct l as [|q l]; [reflexivity|].
  destruct (20 <? List.length ((q :: l) ++ [p]))%nat; [|apply H].
  simpl. apply H.
Qed.

Lemma bind_run {A B} (m : M A) (k : A -> M B) s a s' :
  m s = Ok (a, s') -> bind m k s = k a s'.
Proof. unfold bind. now intros ->. Qed.

Lemma lift_run {A} (r : res A) a s : r = Ok a -> lift r s = Ok (a, s).
Proof. now intros ->. Qed.

Lemma users_setitem_run uid u s :
  users_setitem uid u s
  = Ok (tt, {| users := <[uid := u]> (users s); geo_index := geo_index s |}).
Proof. reflexivity. Qed.

(** The first three lines of [upsert_user]: the record of [uid], created
    if need be. *)
Lemma fetch_run {B} uid (k : User -> M B) s :
  (exec known <- users_contains uid;
   exec _ <- (if known then ret tt else users_setitem uid (new_User uid));
   exec u <- users_getitem uid;
   k u) s
  = k (default (new_User uid) (users s !! uid))
      {| users := <[uid := default (new_User uid) (users s !! uid)]> (users s);
         geo_index := geo_index s |}.
Proof.
  unfold bind, users_contains, users_setitem, users_getitem, ret.
  destruct (users s !! uid) as [u0|] eqn:Hu; simpl.
  - rewrite ?Hu. rewrite insert_id by assumption. destruct s; reflexivity.
  - rewrite ?lookup_insert_eq. reflexivity.
Qed.

(** A call of [upsert_user] never raises, and ends in [upsert_result]. *)
Lemma upsert_user_explicit uid lat lon ts clock gh s :
  encode_geohash lat lon GEO_PREC = Ok gh ->
  upsert_user uid lat lon ts clock s
  = Ok (tt, upsert_result uid lat lon ts clock gh s).
Proof.
  intros Hgh. unfold upsert_user, upsert_result. rewrite fetch_run.
  set (u := default (new_User uid) (users s !! uid)).
  set (s1 := {| users := <[uid := u]> (users s); geo_index := geo_index s |}).
  assert (H2 : match last_gh u with
               | Some old => index_discard old uid
               | None => ret tt
               end s1 = Ok (tt, after_discard uid (last_gh u) s1)).
  { destruct (last_gh u) as [old|]; [|reflexivity].
    unfold index_discard.
    apply (index_getitem_store_run old (fun ids => ids ∖ {[uid]})). }
  rewrite (bind_run _ _ _ _ _ H2).
  rewrite (bind_run _ _ _ _ _ (users_setitem_run _ _ _)).
  rewrite (bind_run _ _ _ gh _ (lift_run _ _ _ Hgh)).
  rewrite (bind_run _ _ _ _ _ (users_setitem_run _ _ _)).
  unfold index_add.
  rewrite (index_getitem_store_run gh (fun ids => ids ∪ {[uid]})).
  cbn [users geo_index]. unfold upserted.
  assert (Hus : users (after_discard uid (last_gh u) s1) = <[uid := u]> (users s))
    by (destruct (last_gh u); reflexivity).
  assert (Hix : geo_index (after_discard uid (last_gh u) s1)
                = geo_index (after_discard uid (last_gh u) s))
    by (destruct (last_gh u); reflexivity).
  rewrite Hus, !insert_insert_eq. unfold index_set. cbn [geo_index].
  rewrite Hix. reflexivity.
Qed.

Lemma index_set_after_discard uid old s c y :
  y ∈ index_set (after_discard uid old s) c <->
  y ∈ index_set s c /\ ~ (y = uid /\ old = Some c).
Proof.
  destruct old as [old|]; simpl.
  - rewrite index_set_insert. destruct (decide (old = c)) as [->|Hne].
    + set_solver.
    + split; [intros H; split; [exact H|]|tauto]. intros [_ E]. congruence.
  - split; [intros H; split; [exact H|]|tauto]. intros [_ E]. discriminate.
Qed.

(** What a call of [upsert_user] does: it never raises, the record of
    [uid] is replaced, and [uid] moves from its old bucket to the one of
    the new coordinates. *)
Lemma upsert_user_run uid lat lon ts clock s :
  exists gh s',
    encode_geohash lat lon GEO_PREC = Ok gh
    /\ upsert_user uid lat lon ts clock s = Ok (tt, s')
    /\ users s' =
         <[uid := upserted (default (new_User uid) (users s !! uid))
                    lat lon ts clock gh]> (users s)
    /\ forall x c,
         x ∈ index_set s' c <->
         (x = uid /\ c = gh)
         \/ (x ∈ index_set s c
             /\ ~ (x = uid
                   /\ exists u, users s !! uid = Some u /\ last_gh u = Some c)).
Proof.
  destruct (encode_geohash_length lat lon GEO_PREC) as (gh & Hgh & _);
    [unfold GEO_PREC; lia|].
  exists gh, (upsert_result uid lat lon ts clock gh s).
  split; [exact Hgh|]. split; [now apply upsert_user_explicit|].
  split; [reflexivity|].
  intros x c. unfold upsert_result.
  set (u := default (new_User uid) (users s !! uid)).
  rewrite index_set_insert.
  assert (Hold : last_gh u = Some c <->
                 exists u0, users s !! uid = Some u0 /\ last_gh u0 = Some c).
  { subst u. destruct (users s !! uid) as [u0|]; simpl.
    - split; [eauto|]. intros (u1 & E & H). now inversion E; subst.
    - split; [discriminate|]. intros (u1 & E & _). discriminate. }
  destruct (decide (gh = c)) as [->|Hne].
  - rewrite elem_of_union, elem_of_singleton, index_set_after_discard, Hold. tauto.
  - rewrite index_set_after_discard, Hold.
    split; [tauto|]. intros [[_ E]|H]; [congruence|tauto].
Qed.

Lemma upsert_user_total uid lat lon ts clock s :
  exists s', upsert_user uid lat lon ts clock s = Ok (tt, s').
Proof.
  destruct (upsert_user_run uid lat lon ts clock s) as (gh & s' & _ & H & _).
  eauto.
Qed.

(** C1, as the program has it.  [upsert_user] does not validate its
    coordinates: every call returns normally, whether the latitude and
    the longitude are in range or not, and records the sample as its
    agent's latest location, in the bucket that [encode_geohash] gives
    for it. *)
Theorem upsert_user_never_rejects uid lat lon ts clock (s : State) :
  exists gh s' u,
    encode_geohash lat lon GEO_PREC = Ok gh
    /\ upsert_user uid lat lon ts clock s = Ok (tt, s')
    /\ users s' !! uid = Some u
    /\ latest_location u = Some (lat, lon)
    /\ last_gh u = Some gh.
Proof.
  destruct (upsert_user_run uid lat lon ts clock s)
    as (gh & s' & Hgh & Hrun & Husers & _).
  exists gh, s'. eexists. split; [exact Hgh|]. split; [exact Hrun|].
  rewrite Husers, lookup_insert_eq. split; [reflexivity|].
  split; [|reflexivity].
  unfold upserted, latest_location. simpl. apply latest_location_append.
Qed.

(** C1, as stated, fails: a latitude of 100 degrees is not rejected. *)
Lemma upsert_user_accepts_latitude_100 :
  ~ (~ valid_coordinates 100 0 ->
     exists e, upsert_user "alice" 100 0 None 0 initial_state = Raise e).
Proof.
  intros H.
  destruct H as (e & He).
  - unfold valid_coordinates. lra.
  - destruct (upsert_user_total "alice" 100 0 None 0 initial_state)
      as (s' & Hs').
    congruence.
Qed.

(** *** The bucket invariant *)

Lemma index_consistent_initial : index_consistent initial_state.
Proof.
  intros x c. unfold index_set; simpl. rewrite !lookup_empty. simpl.
  split; [set_solver|]. intros (u & H & _). discriminate.
Qed.

Lemma upsert_user_consistent uid lat lon ts clock s s' :
  index_consistent s ->
  upsert_user uid lat lon ts clock s = Ok (tt, s') ->
  index_consistent s'.
Proof.
  intros Hinv Hrun.
  destruct (upsert_user_run uid lat lon ts clock s)
    as (gh & s'' & _ & Hrun' & Husers & Hindex).
  rewrite Hrun in Hrun'. inversion Hrun'; subst s''. clear Hrun'.
  intros x c. rewrite Hindex, Husers, (Hinv x c).
  destruct (decide (x = uid)) as [->|Hne].
  - rewrite lookup_insert_eq. split.
    + intros [[_ ->]|[H1 H2]]; [eexists; split; reflexivity|].
      exfalso. apply H2. split; [reflexivity|exact H1].
    + intros (u & Hu & Hc). inversion Hu; subst u. simpl in Hc.
      inversion Hc; subst. left. auto.
  - rewrite lookup_insert_ne by congruence. split.
    + intros [[E _]|[H _]]; [contradiction|exact H].
    + intros H. right. split; [exact H|]. intros [E _]. contradiction.
Qed.

Lemma run_upserts_consistent calls :
  forall s, index_consistent s ->
  exists s', run_upserts calls s = Ok (tt, s') /\ index_consistent s'.
Proof.
  unfold run_upserts.
  induction calls as [|c calls IH]; intros s Hinv; simpl.
  - exists s. split; [reflexivity|assumption].
  - destruct (upsert_user_total (call_uid c) (call_lat c) (call_lon c)
                (call_ts c) (call_clock c) s) as (s1 & Hs1).
    rewrite (bind_run _ _ _ _ _ Hs1).
    apply IH. eapply upsert_user_consistent; eauto.
Qed.

(** After a sequence of calls every known agent has a bucket. *)
Lemma known_agents_bucketed calls :
  forall s,
    (forall x u, users s !! x = Some u -> is_Some (last_gh u)) ->
    forall s', run_upserts calls s = Ok (tt, s') ->
    forall x u, users s' !! x = Some u -> is_Some (last_gh u).
Proof.
  unfold run_upserts.
  induction calls as [|c calls IH]; intros s Hs s' Hrun; simpl in Hrun.
  - inversion Hrun; subst. exact Hs.
  - destruct (upsert_user_run (call_uid c) (call_lat c) (call_lon c)
                (call_ts c) (call_clock c) s) as (gh & s1 & _ & Hs1 & Hus & _).
    rewrite (bind_run _ _ _ _ _ Hs1) in Hrun.
    apply (IH s1); [|exact Hrun].
    intros x u. rewrite Hus.
    destruct (decide (call_uid c = x)) as [->|Hne].
    + rewrite lookup_insert_eq. intros E. inversion E; subst. simpl. eauto.
    + rewrite lookup_insert_ne by assumption. apply Hs.
Qed.

(** C2.  Bucket invariant: after any finite sequence of [upsert_user]
    calls, every known agent whose recorded bucket is [c] is a member of
    the set that the index holds for [c], and of the set of no other
    bucket. *)
Theorem bucket_invariant (calls : list upsert_call) :
  exists s,
    run_upserts calls initial_state = Ok (tt, s)
    /\ forall A u c,
         users s !! A = Some u ->
         last_gh u = Some c ->
         (exists ids, geo_index s !! c = Some ids /\ A ∈ ids)
         /\ forall c' ids', c' <> c -> geo_index s !! c' = Some ids' -> A ∉ ids'.
Proof.
  destruct (run_upserts_consistent calls initial_state index_consistent_initial)
    as (s & Hrun & Hinv).
  exists s. split; [exact Hrun|]. intros A u c Hu Hc.
  assert (Hin : A ∈ index_set s c) by (apply Hinv; eauto).
  split.
  - unfold index_set in Hin. destruct (geo_index s !! c) as [ids|]; simpl in Hin.
    + eauto.
    + set_solver.
  - intros c' ids' Hne Hc' Hin'.
    assert (Hin2 : A ∈ index_set s c') by (unfold index_set; now rewrite Hc').
    apply Hinv in Hin2 as (u' & Hu' & Hgh). congruence.
Qed.

(** C8.  Encode determinism and fixed length: for valid coordinates and
    a positive precision, two calls of [encode_geohash] with the same
    arguments, in whatever states of the store, return the same code
    (and leave the store alone), and that code has [precision]
    characters. *)
Theorem encode_deterministic_fixed_length lat lon precision (s1 s2 : State) :
  valid_coordinates lat lon ->
  (0 < precision)%Z ->
  exists code,
    lift (encode_geohash lat lon precision) s1 = Ok (code, s1)
    /\ lift (encode_geohash lat lon precision) s2 = Ok (code, s2)
    /\ Z.of_nat (String.length code) = precision.
Proof.
  intros _ Hp.
  destruct (encode_geohash_length lat lon precision) as (code & Hc & Hlen);
    [lia|].
  exists code. rewrite Hc. auto.
Qed.

Lemma encode_deterministic_fixed_length_witness :
  valid_coordinates 35.681236 139.767125
  /\ (0 < 8)%Z
  /\ exists code,
       lift (encode_geohash 35.681236 139.767125 8) initial_state
       = Ok (code, initial_state)
       /\ lift (encode_geohash 35.681236 139.767125 8) initial_state
          = Ok (code, initial_state)
       /\ Z.of_nat (String.length code) = 8%Z.
Proof.
  assert (Hv : valid_coordinates 35.681236 139.767125)
    by (unfold valid_coordinates; lra).
  assert (Hp : (0 < 8)%Z) by lia.
  split; [exact Hv|]. split; [exact Hp|].
  exact (encode_deterministic_fixed_length 35.681236 139.767125 8
           initial_state initial_state Hv Hp).
Defined.

(** *** Two agents at the same place *)

(** The store of the two agents is the one that their two reports build. *)
Example meeting_reached :
  run_upserts
    [ {| call_uid := "alice"; call_lat := 35.681236; call_lon := 139.767125;
         call_ts := Some 0%R; call_clock := 0 |};
      {| call_uid := "bob"; call_lat := 35.681236; call_lon := 139.767125;
         call_ts := Some 1%R; call_clock := 1 |} ]
    initial_state
  = Ok (tt, meeting_store).
Proof.
  unfold run_upserts. cbn [for_each call_uid call_lat call_lon call_ts call_clock].
  rewrite (bind_run _ _ _ _ _
             (upsert_user_explicit "alice" _ _ _ _ _ _ encode_tokyo)).
  rewrite (bind_run _ _ _ _ _
             (upsert_user_explicit "bob" _ _ _ _ _ _ encode_tokyo)).
  reflexivity.
Qed.

(** Queried soon enough, "alice" meets "bob", at distance 0. *)
Example meeting_found :
  exists hits,
    check_proximity_geohash "alice" THRESH_M TIME_WINDOW 2 meeting_store
    = Ok (hits, meeting_store)
    /\ ("bob", 0%R) ∈ hits.
Proof.
  assert (Hu : users meeting_store !! "alice" = Some alice).
  { unfold meeting_store; cbn [users].
    rewrite lookup_insert_ne by discriminate. apply lookup_insert_eq. }
  assert (Hl : latest_location alice = Some (35.681236, 139.767125)%R).
  { reflexivity. }
  destruct (check_proximity_hits meeting_store "alice" THRESH_M TIME_WINDOW 2
              alice 35.681236 139.767125 Hu Hl)
    as (gh & nb & hits & Hgh & _ & Hrun & Hhits).
  exists hits. split; [exact Hrun|]. apply Hhits.
  assert (Hv : valid_latitude 35.681236) by (unfold valid_latitude; lra).
  assert (Hown : own_bucket alice 35.681236 139.767125 = Ok "xn76urx6").
  { reflexivity. }
  rewrite Hown in Hgh. inversion Hgh; subst gh.
  split.
  - exists "xn76urx6".
    split; [apply elem_of_union_l, elem_of_singleton_2; reflexivity|].
    assert (E : index_set meeting_store "xn76urx6" = {["alice"; "bob"]}).
    { unfold index_set, meeting_store; cbn [geo_index].
      rewrite lookup_insert_eq. reflexivity. }
    rewrite E. apply elem_of_union_r, elem_of_singleton_2. reflexivity.
  - apply accepts_Some. split; [discriminate|].
    exists bob, 35.681236%R, 139.767125%R.
    split; [apply lookup_insert_eq|]. split; [reflexivity|].
    split; [unfold TIME_WINDOW; cbn [last_ts bob agent_at]; lra|].
    split.
    + apply near_same_point; [exact Hv|unfold THRESH_M; lra|unfold RELAX_RATIO; lra].
    + symmetry. now apply haversine_same_point.
Qed.

(** Queried at time 100, "bob"'s report is older than the window. *)
Lemma recency_filter_witness :
  users meeting_store !! "bob" = Some bob
  /\ (100 - last_ts bob > TIME_WINDOW)%R
  /\ exists hits,
       check_proximity_geohash "alice" THRESH_M TIME_WINDOW 100 meeting_store
       = Ok (hits, meeting_store)
       /\ forall d, ("bob", d) ∉ hits.
Proof.
  assert (Hb : users meeting_store !! "bob" = Some bob) by apply lookup_insert_eq.
  assert (Hs : (100 - last_ts bob > TIME_WINDOW)%R)
    by (unfold TIME_WINDOW; simpl; lra).
  split; [exact Hb|]. split; [exact Hs|].
  exact (recency_filter "alice" THRESH_M TIME_WINDOW 100 meeting_store
           "bob" bob Hb Hs).
Defined.

(** *** Further properties of [upsert_user] *)

(** A property of the store that every call keeps holds after any
    sequence of calls. *)
Lemma run_upserts_invariant (P : State -> Prop) calls :
  (forall uid lat lon ts clock s s',
      P s -> upsert_user uid lat lon ts clock s = Ok (tt, s') -> P s') ->
  forall s, P s ->
  exists s', run_upserts calls s = Ok (tt, s') /\ P s'.
Proof.
  intros Hstep. unfold run_upserts.
  induction calls as [|c calls IH]; intros s Hs; simpl.
  - exists s. split; [reflexivity|assumption].
  - destruct (upsert_user_total (call_uid c) (call_lat c) (call_lon c)
                (call_ts c) (call_clock c) s) as (s1 & Hs1).
    rewrite (bind_run _ _ _ _ _ Hs1). apply IH. eapply Hstep; eauto.
Qed.

Lemma deque_append_length {A} (l : list A) (x : A) :
  (List.length l <= 20)%nat ->
  (1 <= List.length (deque_append 20 l x) <= 20)%nat.
Proof.
  intros H. unfold deque_append.
  destruct (Nat.ltb_spec 20 (List.length (l ++ [x]))) as [Hlt|Hle];
    rewrite List.length_app in *; simpl in *.
  - destruct l as [|y l]; simpl in *; [lia|].
    rewrite List.length_app; simpl. lia.
  - lia.
Qed.

Lemma upsert_user_records_ok uid lat lon ts clock s s' :
  records_ok s ->
  upsert_user uid lat lon ts clock s = Ok (tt, s') ->
  records_ok s'.
Proof.
  intros Hok Hrun.
  destruct (upsert_user_run uid lat lon ts clock s)
    as (gh & s'' & Hgh & Hrun' & Husers & _).
  rewrite Hrun in Hrun'. inversion Hrun'; subst s''. clear Hrun'.
  intros x u. rewrite Husers.
  destruct (decide (uid = x)) as [->|Hne].
  - rewrite lookup_insert_eq. intros E. inversion E; subst u. clear E.
    unfold record_ok, upserted. cbn [user_id location_histry last_gh
      set_last_gh add_location].
    assert (Hu0 : user_id (default (new_User x) (users s !! x)) = x
                  /\ (List.length (location_histry
                                     (default (new_User x) (users s !! x)))
                      <= 20)%nat).
    { destruct (users s !! x) as [u0|] eqn:E0; simpl.
      - destruct (Hok x u0 E0) as (H1 & H2 & _). split; [assumption|lia].
      - split; [reflexivity|lia]. }
    destruct Hu0 as [Hid Hlen].
    split; [exact Hid|]. split; [now apply deque_append_length|].
    exists lat, lon, gh. split; [|split; [exact Hgh|reflexivity]].
    unfold latest_location. cbn [location_histry]. apply latest_location_append.
  - rewrite lookup_insert_ne by assumption. apply Hok.
Qed.

Lemma records_ok_initial : records_ok initial_state.
Proof. intros x u H. simpl in H. rewrite lookup_empty in H. discriminate. Qed.

Lemma run_upserts_records_ok calls :
  exists s, run_upserts calls initial_state = Ok (tt, s) /\ records_ok s.
Proof.
  apply (run_upserts_invariant records_ok).
  - intros. eapply upsert_user_records_ok; eauto.
  - apply records_ok_initial.
Qed.

(** X13.  After any sequence of [upsert_user] calls the record of every
    known agent is consistent: it is filed under its own identifier, it
    has a latest location, and its bucket is the code of that location. *)
Theorem records_consistent (calls : list upsert_call) :
  exists s,
    run_upserts calls initial_state = Ok (tt, s)
    /\ forall x u,
         users s !! x = Some u ->
         user_id u = x
         /\ exists lat lon gh,
              latest_location u = Some (lat, lon)
              /\ encode_geohash lat lon GEO_PREC = Ok gh
              /\ last_gh u = Some gh.
Proof.
  destruct (run_upserts_records_ok calls) as (s & Hrun & Hok).
  exists s. split; [exact Hrun|]. intros x u Hu.
  destruct (Hok x u Hu) as (H1 & _ & H3). auto.
Qed.

(** X14.  After any sequence of [upsert_user] calls the history of every
    known agent holds at least one and at most 20 positions. *)
Theorem histories_bounded (calls : list upsert_call) :
  exists s,
    run_upserts calls initial_state = Ok (tt, s)
    /\ forall x u,
         users s !! x = Some u ->
         (1 <= List.length (location_histry u) <= 20)%nat.
Proof.
  destruct (run_upserts_records_ok calls) as (s & Hrun & Hok).
  exists s. split; [exact Hrun|]. intros x u Hu.
  destruct (Hok x u Hu) as (_ & H2 & _). exact H2.
Qed.

(** X15.  The index holds no stranger: after any sequence of
    [upsert_user] calls every identifier found in the set of a bucket is a
    known agent, whose recorded bucket is that one. *)
Theorem index_holds_known_agents (calls : list upsert_call) :
  exists s,
    run_upserts calls initial_state = Ok (tt, s)
    /\ forall c ids x,
         geo_index s !! c = Some ids -> x ∈ ids ->
         exists u, users s !! x = Some u /\ last_gh u = Some c.
Proof.
  destruct (run_upserts_consistent calls initial_state index_consistent_initial)
    as (s & Hrun & Hinv).
  exists s. split; [exact Hrun|]. intros c ids x Hc Hx.
  apply Hinv. unfold index_set. now rewrite Hc.
Qed.

(** X16.  A call of [upsert_user] for an agent leaves the other agents
    alone: their records are the same, and they are in the same buckets. *)
Theorem upsert_user_frame uid lat lon ts clock (s : State) :
  exists s',
    upsert_user uid lat lon ts clock s = Ok (tt, s')
    /\ forall x, x <> uid ->
         users s' !! x = users s !! x
         /\ forall c, x ∈ index_set s' c <-> x ∈ index_set s c.
Proof.
  destruct (upsert_user_run uid lat lon ts clock s)
    as (gh & s' & _ & Hrun & Husers & Hindex).
  exists s'. split; [exact Hrun|]. intros x Hne. split.
  - rewrite Husers. apply lookup_insert_ne. congruence.
  - intros c. rewrite Hindex. split.
    + intros [[E _]|[H _]]; [contradiction|exact H].
    + intros H. right. split; [exact H|]. intros [E _]. contradiction.
Qed.

(** X17.  [upsert_user] removes nothing: the agents known before the call
    are known after it, and the keys of the index before the call are
    keys of the index after it, also the bucket that the agent leaves. *)
Theorem upsert_user_keeps_keys uid lat lon ts clock (s : State) :
  exists s',
    upsert_user uid lat lon ts clock s = Ok (tt, s')
    /\ dom (users s) ⊆ dom (users s')
    /\ dom (geo_index s) ⊆ dom (geo_index s').
Proof.
  destruct (encode_geohash_length lat lon GEO_PREC) as (gh & Hgh & _);
    [unfold GEO_PREC; lia|].
  exists (upsert_result uid lat lon ts clock gh s).
  split; [now apply upsert_user_explicit|].
  unfold upsert_result. cbn [users geo_index]. rewrite !dom_insert_L.
  split; [set_solver|].
  destruct (last_gh (default (new_User uid) (users s !! uid))) as [old|];
    cbn [after_discard geo_index]; rewrite ?dom_insert_L; set_solver.
Qed.

(** An agent filed under [gh] who reports coordinates of that same cell
    leaves the index as it was. *)
Lemma upsert_result_same_bucket uid lat lon ts clock gh s u :
  users s !! uid = Some u -> last_gh u = Some gh -> uid ∈ index_set s gh ->
  geo_index (upsert_result uid lat lon ts clock gh s) = geo_index s.
Proof.
  intros Hu Hgh Hin. unfold upsert_result. rewrite Hu.
  change (default (new_User uid) (Some u)) with u. cbv zeta.
  cbn [geo_index]. rewrite Hgh.
  cbn [after_discard geo_index].
  rewrite index_set_insert, decide_True by reflexivity.
  rewrite insert_insert_eq.
  unfold index_set in *.
  destruct (geo_index s !! gh) as [ids|] eqn:E; cbn [default from_option id] in *.
  - apply insert_id. rewrite E. f_equal.
    apply set_eq. intros y. rewrite elem_of_union, elem_of_difference,
      elem_of_singleton.
    destruct (decide (y = uid)) as [->|Hne]; tauto.
  - apply elem_of_empty in Hin. contradiction.
Qed.

(** X18.  Moving inside a cell does not touch the index: when an agent
    reports coordinates that have the same code as the coordinates of the
    previous report, the second call leaves [geo_index] as the first one
    left it. *)
Theorem upsert_user_same_cell uid lat lon ts1 clock1 lat' lon' ts2 clock2
    (s : State) :
  encode_geohash lat' lon' GEO_PREC = encode_geohash lat lon GEO_PREC ->
  exists s1 s2,
    upsert_user uid lat lon ts1 clock1 s = Ok (tt, s1)
    /\ upsert_user uid lat' lon' ts2 clock2 s1 = Ok (tt, s2)
    /\ geo_index s2 = geo_index s1.
Proof.
  intros Hsame.
  destruct (encode_geohash_length lat lon GEO_PREC) as (gh & Hgh & _);
    [unfold GEO_PREC; lia|].
  rewrite Hgh in Hsame.
  set (s1 := upsert_result uid lat lon ts1 clock1 gh s).
  exists s1, (upsert_result uid lat' lon' ts2 clock2 gh s1).
  split; [now apply upsert_user_explicit|].
  split; [now apply upsert_user_explicit|].
  eapply upsert_result_same_bucket.
  - unfold s1, upsert_result. cbn [users]. apply lookup_insert_eq.
  - reflexivity.
  - unfold s1, upsert_result. rewrite index_set_insert, decide_True by reflexivity.
    apply elem_of_union_r, elem_of_singleton_2. reflexivity.
Qed.

Lemma upsert_user_same_cell_witness :
  exists s1 s2,
    upsert_user "alice" 90 0 None 0 initial_state = Ok (tt, s1)
    /\ upsert_user "alice" 100 0 None 1 s1 = Ok (tt, s2)
    /\ geo_index s2 = geo_index s1.
Proof.
  apply (upsert_user_same_cell "alice" 90 0 None 0 100 0 None 1 initial_state).
  destruct encode_latitude_100 as [H100 H90].
  unfold GEO_PREC. rewrite H100, H90. reflexivity.
Defined.

(** *** The history of an agent *)

Lemma deque_append_last_twenty {A} (l : list A) (x : A) :
  deque_append 20 (drop (List.length l - 20) l) x
  = drop (List.length (l ++ [x]) - 20) (l ++ [x]).
Proof.
  unfold deque_append. rewrite !List.length_app, length_drop. simpl.
  destruct (le_lt_dec 20 (List.length l)) as [Hge|Hlt].
  - replace (20 <? List.length l - (List.length l - 20) + 1)%nat with true
      by (symmetry; apply Nat.ltb_lt; lia).
    replace (List.length l + 1 - 20)%nat with (S (List.length l - 20)) by lia.
    assert (Hn : (List.length l - 20 < List.length l)%nat) by lia.
    revert Hn. generalize (List.length l - 20)%nat as n. clear Hge.
    induction l as [|y l IH]; intros n Hn; simpl in *; [lia|].
    destruct n as [|n].
    + reflexivity.
    + simpl. destruct l as [|z l]; [simpl in Hn; lia|].
      apply IH. simpl in *. lia.
  - replace (20 <? List.length l - (List.length l - 20) + 1)%nat with false
      by (symmetry; apply Nat.ltb_ge; lia).
    replace (List.length l - 20)%nat with 0%nat by lia.
    replace (List.length l + 1 - 20)%nat with 0%nat by lia.
    reflexivity.
Qed.

Lemma reported_snoc uid calls c :
  reported uid (calls ++ [c])
  = reported uid calls
    ++ (if decide (call_uid c = uid) then [(call_lat c, call_lon c)] else []).
Proof.
  unfold reported. rewrite filter_app, fmap_app. f_equal.
  rewrite filter_cons, filter_nil.
  destruct (decide (call_uid c = uid)); reflexivity.
Qed.

Lemma upsert_user_history uid lat lon ts clock s s' x :
  upsert_user uid lat lon ts clock s = Ok (tt, s') ->
  history_of s' x
  = if decide (uid = x) then deque_append 20 (history_of s x) (lat, lon)
    else history_of s x.
Proof.
  intros Hrun.
  destruct (upsert_user_run uid lat lon ts clock s)
    as (gh & s'' & _ & Hrun' & Husers & _).
  rewrite Hrun in Hrun'. inversion Hrun'; subst s''. clear Hrun'.
  unfold history_of. rewrite Husers.
  destruct (decide (uid = x)) as [->|Hne].
  - rewrite lookup_insert_eq. unfold upserted.
    cbn [location_histry set_last_gh add_location].
    destruct (users s !! x); reflexivity.
  - now rewrite lookup_insert_ne.
Qed.

Lemma run_upserts_history calls :
  forall pre s,
    (forall x, history_of s x
               = drop (List.length (reported x pre) - 20) (reported x pre)) ->
    exists s',
      run_upserts calls s = Ok (tt, s')
      /\ forall x, history_of s' x
                   = drop (List.length (reported x (pre ++ calls)) - 20)
                       (reported x (pre ++ calls)).
Proof.
  unfold run_upserts.
  induction calls as [|c calls IH]; intros pre s Hs; simpl.
  - exists s. split; [reflexivity|]. now rewrite app_nil_r.
  - destruct (upsert_user_total (call_uid c) (call_lat c) (call_lon c)
                (call_ts c) (call_clock c) s) as (s1 & Hs1).
    rewrite (bind_run _ _ _ _ _ Hs1).
    destruct (IH (pre ++ [c]) s1) as (s' & Hrun & Hh).
    + intros x. rewrite (upsert_user_history _ _ _ _ _ _ _ x Hs1).
      rewrite reported_snoc, Hs.
      destruct (decide (call_uid c = x)).
      * apply deque_append_last_twenty.
      * now rewrite app_nil_r.
    + exists s'. split; [exact Hrun|]. intros x.
      rewrite Hh, <- app_assoc. reflexivity.
Qed.

(** X19.  After any sequence of [upsert_user] calls the history of an
    agent is made of the last 20 positions reported for it, in the order
    of the calls: the bounded queue forgets the oldest ones and nothing
    else. *)
Theorem history_last_twenty (calls : list upsert_call) :
  exists s,
    run_upserts calls initial_state = Ok (tt, s)
    /\ forall uid,
         history_of s uid
         = drop (List.length (reported uid calls) - 20) (reported uid calls).
Proof.
  apply (run_upserts_history calls [] initial_state).
  intros x. unfold history_of, initial_state. cbn [users].
  rewrite lookup_empty. reflexivity.
Qed.

(** *** The query in the states that [upsert_user] builds *)

Lemma run_upserts_reachable calls :
  exists s,
    run_upserts calls initial_state = Ok (tt, s)
    /\ records_ok s /\ index_consistent s.
Proof.
  apply (run_upserts_invariant (fun s => records_ok s /\ index_consistent s)).
  - intros uid lat lon ts clock s s' [Hr Hi] Hrun. split.
    + eapply upsert_user_records_ok; eauto.
    + eapply upsert_user_consistent; eauto.
  - split; [apply records_ok_initial|apply index_consistent_initial].
Qed.

Lemma run_upserts_reached calls s :
  run_upserts calls initial_state = Ok (tt, s) ->
  records_ok s /\ index_consistent s.
Proof.
  intros Hrun. destruct (run_upserts_reachable calls) as (s' & Hrun' & H).
  rewrite Hrun in Hrun'. inversion Hrun'; subst. exact H.
Qed.

(** The bucket that the query starts from is the code of the agent's
    latest location. *)
Lemma own_bucket_record x u lat1 lon1 :
  record_ok x u -> latest_location u = Some (lat1, lon1) ->
  own_bucket u lat1 lon1 = encode_geohash lat1 lon1 GEO_PREC.
Proof.
  intros (_ & _ & lat & lon & gh & Hloc & Hgh & Hlast) Hloc1.
  rewrite Hloc in Hloc1. inversion Hloc1; subst lat lon.
  unfold own_bucket. rewrite Hlast.
  destruct (String.eqb gh ""); [reflexivity|now rewrite Hgh].
Qed.

(** The hits of a query in a consistent store: the other agents of the
    nine cells, seen recently enough, that pass the three tests. *)
Lemma hits_in_consistent_store s uid threshold time_window clock u lat1 lon1 gh nb :
  records_ok s -> index_consistent s ->
  users s !! uid = Some u ->
  latest_location u = Some (lat1, lon1) ->
  encode_geohash lat1 lon1 GEO_PREC = Ok gh ->
  neighbors gh = Ok nb ->
  exists hits,
    check_proximity_geohash uid threshold time_window clock s = Ok (hits, s)
    /\ forall vid d,
         (vid, d) ∈ hits <->
         vid <> uid
         /\ exists v lat2 lon2 gh',
              users s !! vid = Some v
              /\ latest_location v = Some (lat2, lon2)
              /\ encode_geohash lat2 lon2 GEO_PREC = Ok gh'
              /\ (gh' = gh \/ gh' ∈ nb)
              /\ (clock - last_ts v <= time_window)%R
              /\ near_with_stages lat1 lon1 lat2 lon2 threshold RELAX_RATIO = true
              /\ d = haversine lat1 lon1 lat2 lon2.
Proof.
  intros Hrec Hidx Hu Hloc Hgh Hnb.
  destruct (check_proximity_hits s uid threshold time_window clock u lat1 lon1
              Hu Hloc) as (gh0 & nb0 & hits & Hgh0 & Hnb0 & Hrun & Hhits).
  rewrite (own_bucket_record uid u lat1 lon1 (Hrec _ _ Hu) Hloc), Hgh in Hgh0.
  inversion Hgh0; subst gh0. rewrite Hnb in Hnb0. inversion Hnb0; subst nb0.
  exists hits. split; [exact Hrun|]. intros vid d.
  rewrite Hhits, accepts_Some. split.
  - intros ((h & Hh & Hin) & Hne & v & lat2 & lon2 & Hv & Hlv & Hfresh & Hnear & ->).
    split; [exact Hne|]. exists v, lat2, lon2, h.
    apply Hidx in Hin as (v' & Hv' & Hlast).
    rewrite Hv in Hv'. inversion Hv'; subst v'.
    destruct (Hrec _ _ Hv) as (_ & _ & lat & lon & c & Hl & Hc & Hlast').
    rewrite Hlv in Hl. inversion Hl; subst lat lon.
    rewrite Hlast in Hlast'. inversion Hlast'; subst c.
    repeat split; try assumption.
    apply elem_of_union in Hh as [Hh|Hh]; [left|now right].
    now apply elem_of_singleton in Hh.
  - intros (Hne & v & lat2 & lon2 & gh' & Hv & Hlv & Hc & Hcell & Hfresh & Hnear & ->).
    split.
    + exists gh'. split.
      * destruct Hcell as [->|Hin];
          [apply elem_of_union_l, elem_of_singleton_2; reflexivity
          |now apply elem_of_union_r].
      * apply Hidx. exists v. split; [exact Hv|].
        destruct (Hrec _ _ Hv) as (_ & _ & lat & lon & c & Hl & Hc' & Hlast).
        rewrite Hlv in Hl. inversion Hl; subst lat lon. congruence.
    + split; [exact Hne|]. exists v, lat2, lon2. auto.
Qed.

(** X20.  No agent is reported twice: the identifiers of the hits of a
    query are pairwise distinct, in every state of the store. *)
Theorem hits_without_duplicates uid threshold time_window clock (s : State) :
  exists hits,
    check_proximity_geohash uid threshold time_window clock s = Ok (hits, s)
    /\ NoDup hits.*1.
Proof.
  assert (Hflat : forall lat1 lon1 l,
             NoDup l ->
             NoDup (flat_map (hit_of s uid lat1 lon1 threshold time_window clock)
                      l).*1).
  { intros lat1 lon1 l. induction l as [|x l IH]; intros Hl; simpl.
    - constructor.
    - apply NoDup_cons in Hl as [Hx Hl]. rewrite fmap_app.
      unfold hit_of at 1.
      destruct (accepts s uid lat1 lon1 threshold time_window clock x) as [d|];
        simpl; [|now apply IH].
      apply NoDup_cons. split; [|now apply IH].
      intros Hin. apply list_elem_of_fmap in Hin as ([y d'] & Hy & Hin).
      simpl in Hy; subst y. apply elem_of_hits in Hin as [Hin _]. contradiction. }
  unfold check_proximity_geohash. unfold bind at 1. unfold users_get.
  destruct (users s !! uid) as [u|]; [|exists []; split; [reflexivity|constructor]].
  destruct (latest_location u) as [[lat1 lon1]|];
    [|exists []; split; [reflexivity|constructor]].
  destruct (own_bucket_total u lat1 lon1) as (gh & Hgh).
  destruct (neighbors_total gh) as (nb & Hnb).
  unfold bind at 1. rewrite Hgh. cbn [lift].
  unfold bind at 1. rewrite Hnb. cbn [lift].
  unfold bind at 1. rewrite for_each_collect_run.
  rewrite for_each_examine_run. eexists. split; [reflexivity|].
  cbn [app]. apply Hflat, NoDup_elements.
Qed.

(** X21.  The query looks at nine cells only: in a store built by
    [upsert_user] calls, the latest location of every hit has the code
    of the querying agent's latest location, or the code of one of its
    eight neighbours. *)
Theorem hits_come_from_nine_cells (calls : list upsert_call)
    uid threshold time_window clock :
  exists s hits,
    run_upserts calls initial_state = Ok (tt, s)
    /\ check_proximity_geohash uid threshold time_window clock s = Ok (hits, s)
    /\ forall vid d,
         (vid, d) ∈ hits ->
         exists u v lat1 lon1 lat2 lon2 gh gh' nb,
           users s !! uid = Some u
           /\ latest_location u = Some (lat1, lon1)
           /\ users s !! vid = Some v
           /\ latest_location v = Some (lat2, lon2)
           /\ encode_geohash lat1 lon1 GEO_PREC = Ok gh
           /\ encode_geohash lat2 lon2 GEO_PREC = Ok gh'
           /\ neighbors gh = Ok nb
           /\ (gh' = gh \/ gh' ∈ nb).
Proof.
  destruct (run_upserts_reachable calls) as (s & Hrun & Hrec & Hidx).
  exists s.
  destruct (users s !! uid) as [u|] eqn:Hu.
  2:{ exists []. split; [exact Hrun|]. split.
      - apply check_proximity_no_location. intros u H. congruence.
      - intros vid d H. inversion H. }
  destruct (Hrec _ _ Hu) as (_ & _ & lat1 & lon1 & gh & Hloc & Hgh & _).
  destruct (neighbors_total gh) as (nb & Hnb).
  destruct (hits_in_consistent_store s uid threshold time_window clock u
              lat1 lon1 gh nb Hrec Hidx Hu Hloc Hgh Hnb) as (hits & Hq & Hhits).
  exists hits. split; [exact Hrun|]. split; [exact Hq|].
  intros vid d Hin.
  apply Hhits in Hin
    as (_ & v & lat2 & lon2 & gh' & Hv & Hlv & Hc & Hcell & _).
  exists u, v, lat1, lon1, lat2, lon2, gh, gh', nb. auto 10.
Qed.

(** X22.  In a store built by [upsert_user] calls the query misses no
    agent of the nine cells: another agent whose latest location has the
    code of the querying agent's, or of one of its eight neighbours, who
    was seen within the time window and passes [near_with_stages], is
    reported, with the haversine distance. *)
Theorem agents_of_nine_cells_found (calls : list upsert_call) (s : State)
    uid vid u v lat1 lon1 lat2 lon2 gh gh' nb threshold time_window clock :
  run_upserts calls initial_state = Ok (tt, s) ->
  users s !! uid = Some u ->
  latest_location u = Some (lat1, lon1) ->
  users s !! vid = Some v ->
  latest_location v = Some (lat2, lon2) ->
  vid <> uid ->
  encode_geohash lat1 lon1 GEO_PREC = Ok gh ->
  encode_geohash lat2 lon2 GEO_PREC = Ok gh' ->
  neighbors gh = Ok nb ->
  gh' = gh \/ gh' ∈ nb ->
  (clock - last_ts v <= time_window)%R ->
  near_with_stages lat1 lon1 lat2 lon2 threshold RELAX_RATIO = true ->
  exists hits,
    check_proximity_geohash uid threshold time_window clock s = Ok (hits, s)
    /\ (vid, haversine lat1 lon1 lat2 lon2) ∈ hits.
Proof.
  intros Hrun Hu Hloc Hv Hlv Hne Hgh Hgh' Hnb Hcell Hfresh Hnear.
  destruct (run_upserts_reached calls s Hrun) as [Hrec Hidx].
  destruct (hits_in_consistent_store s uid threshold time_window clock u
              lat1 lon1 gh nb Hrec Hidx Hu Hloc Hgh Hnb) as (hits & Hq & Hhits).
  exists hits. split; [exact Hq|]. apply Hhits.
  split; [exact Hne|]. exists v, lat2, lon2, gh'. auto 10.
Qed.

Lemma agents_of_nine_cells_found_witness :
  exists hits,
    check_proximity_geohash "alice" THRESH_M TIME_WINDOW 2 meeting_store
    = Ok (hits, meeting_store)
    /\ ("bob", haversine 35.681236 139.767125 35.681236 139.767125) ∈ hits.
Proof.
  destruct (neighbors_total "xn76urx6") as (nb & Hnb).
  apply (agents_of_nine_cells_found _ meeting_store "alice" "bob" alice bob
           35.681236 139.767125 35.681236 139.767125 "xn76urx6" "xn76urx6" nb
           THRESH_M TIME_WINDOW 2 meeting_reached).
  - unfold meeting_store; cbn [users].
    rewrite lookup_insert_ne by discriminate. apply lookup_insert_eq.
  - reflexivity.
  - apply lookup_insert_eq.
  - reflexivity.
  - discriminate.
  - apply encode_tokyo.
  - apply encode_tokyo.
  - exact Hnb.
  - left. reflexivity.
  - unfold TIME_WINDOW; cbn [last_ts bob agent_at]; lra.
  - apply near_refl; [unfold THRESH_M; lra|unfold RELAX_RATIO; lra].
Defined.

(** X23.  The query grows with its two bounds: with a larger threshold
    and a larger time window, every hit is still a hit, with the same
    distance. *)
Theorem hits_monotone uid threshold threshold' time_window time_window' clock
    (s : State) :
  (threshold <= threshold')%R ->
  (time_window <= time_window')%R ->
  exists hits hits',
    check_proximity_geohash uid threshold time_window clock s = Ok (hits, s)
    /\ check_proximity_geohash uid threshold' time_window' clock s = Ok (hits', s)
    /\ forall vid d, (vid, d) ∈ hits -> (vid, d) ∈ hits'.
Proof.
  intros Hthr Htw.
  destruct (users s !! uid) as [u|] eqn:Hu.
  2:{ exists [], []. split; [|split].
      - apply check_proximity_no_location. intros u H. congruence.
      - apply check_proximity_no_location. intros u H. congruence.
      - auto. }
  destruct (latest_location u) as [[lat1 lon1]|] eqn:Hloc.
  2:{ exists [], []. split; [|split].
      - apply check_proximity_no_location. intros u' H. congruence.
      - apply check_proximity_no_location. intros u' H. congruence.
      - auto. }
  destruct (check_proximity_hits s uid threshold time_window clock u lat1 lon1
              Hu Hloc) as (gh & nb & hits & Hgh & Hnb & Hrun & Hhits).
  destruct (check_proximity_hits s uid threshold' time_window' clock u lat1 lon1
              Hu Hloc) as (gh' & nb' & hits' & Hgh' & Hnb' & Hrun' & Hhits').
  rewrite Hgh in Hgh'. inversion Hgh'; subst gh'.
  rewrite Hnb in Hnb'. inversion Hnb'; subst nb'.
  exists hits, hits'. split; [exact Hrun|]. split; [exact Hrun'|].
  intros vid d Hin. apply Hhits in Hin as [Hcell Hacc]. apply Hhits'.
  split; [exact Hcell|].
  apply accepts_Some in Hacc
    as (Hne & v & lat2 & lon2 & Hv & Hlv & Hfresh & Hnear & Hd).
  apply accepts_Some. split; [exact Hne|]. exists v, lat2, lon2.
  split; [exact Hv|]. split; [exact Hlv|]. split; [lra|].
  split; [|exact Hd].
  eapply near_mono; [exact Hthr| |exact Hnear]. unfold RELAX_RATIO. lra.
Qed.

Lemma hits_monotone_witness :
  exists hits hits',
    check_proximity_geohash "alice" 10 60 2 meeting_store = Ok (hits, meeting_store)
    /\ check_proximity_geohash "alice" 20 120 2 meeting_store
       = Ok (hits', meeting_store)
    /\ forall vid d, (vid, d) ∈ hits -> (vid, d) ∈ hits'.
Proof.
  apply (hits_monotone "alice" 10 20 60 120 2 meeting_store); lra.
Defined.

(** *** A report followed by a query, as in the handler [location] *)

Example alice_alone_reached :
  run_upserts
    [ {| call_uid := "alice"; call_lat := 35.681236; call_lon := 139.767125;
         call_ts := Some 0%R; call_clock := 0 |} ]
    initial_state
  = Ok (tt, alice_alone).
Proof.
  unfold run_upserts. cbn [for_each call_uid call_lat call_lon call_ts call_clock].
  rewrite (bind_run _ _ _ _ _
             (upsert_user_explicit "alice" _ _ _ _ _ _ encode_tokyo)).
  reflexivity.
Qed.

(** X24.  Two agents at the same place meet: when an agent reports the
    coordinates that are the latest location of another agent, seen at
    most [TIME_WINDOW] seconds before the query, the handler's query
    returns that agent, at distance 0. *)
Theorem report_finds_agent_at_same_place (calls : list upsert_call) (s : State)
    uid vid v lat lon t_report t_query :
  run_upserts calls initial_state = Ok (tt, s) ->
  users s !! vid = Some v ->
  vid <> uid ->
  latest_location v = Some (lat, lon) ->
  (t_query - last_ts v <= TIME_WINDOW)%R ->
  exists hits s',
    report_location uid lat lon t_report t_query s = Ok (hits, s')
    /\ (vid, 0%R) ∈ hits.
Proof.
  intros Hrun Hv Hne Hlv Hfresh.
  destruct (run_upserts_reached calls s Hrun) as [Hrec Hidx].
  destruct (upsert_user_run uid lat lon (Some t_report) t_report s)
    as (gh & s1 & Hgh & Hup & Husers & _).
  assert (Hrec1 : records_ok s1) by (eapply upsert_user_records_ok; eauto).
  assert (Hidx1 : index_consistent s1) by (eapply upsert_user_consistent; eauto).
  assert (Hv1 : users s1 !! vid = Some v).
  { rewrite Husers, lookup_insert_ne by congruence. exact Hv. }
  assert (Hu1 : users s1 !! uid
                = Some (upserted (default (new_User uid) (users s !! uid))
                          lat lon (Some t_report) t_report gh)).
  { rewrite Husers. apply lookup_insert_eq. }
  assert (Hloc1 : latest_location
                    (upserted (default (new_User uid) (users s !! uid))
                       lat lon (Some t_report) t_report gh) = Some (lat, lon)).
  { unfold latest_location, upserted.
    cbn [location_histry set_last_gh add_location].
    apply latest_location_append. }
  destruct (neighbors_total gh) as (nb & Hnb).
  destruct (hits_in_consistent_store s1 uid THRESH_M TIME_WINDOW t_query _
              lat lon gh nb Hrec1 Hidx1 Hu1 Hloc1 Hgh Hnb)
    as (hits & Hq & Hhits).
  exists hits, s1. split.
  - unfold report_location. rewrite (bind_run _ _ _ _ _ Hup). exact Hq.
  - apply Hhits. split; [exact Hne|]. exists v, lat, lon, gh.
    split; [exact Hv1|]. split; [exact Hlv|]. split; [exact Hgh|].
    split; [now left|]. split; [exact Hfresh|]. split.
    + apply near_refl; [unfold THRESH_M; lra|unfold RELAX_RATIO; lra].
    + symmetry. apply haversine_refl.
Qed.

Lemma report_finds_agent_at_same_place_witness :
  exists hits s',
    report_location "bob" 35.681236 139.767125 1 2 alice_alone = Ok (hits, s')
    /\ ("alice", 0%R) ∈ hits.
Proof.
  apply (report_finds_agent_at_same_place _ alice_alone "bob" "alice" alice
           35.681236 139.767125 1 2 alice_alone_reached).
  - apply lookup_insert_eq.
  - discriminate.
  - reflexivity.
  - unfold TIME_WINDOW; cbn [last_ts alice agent_at]; lra.
Defined.

(** *** The exhaustive search [check_proximity] *)










End EngineFacts.
